(** * nutility.h: a shallow embedding and its verified properties

    The header bundles a few helpers used to exercise the C++ standard
    library: the shared random engine [urng] with the generators [Irand]
    and [Drand], the numeric predicates [isprime] and [ndigit], the
    container filler [fcs] and the file-open wrappers.

    C++ [int] is modelled as [Z] restricted to the 32-bit range; signed
    overflow is undefined behaviour and is reported as such by the model.
    Loops that the C++ code writes as [while]/[for] are run with fuel; for
    [isprime] and [ndigit] a fixed amount is shown to be enough on every
    [int], for [fcs] the amount needed depends on the callable. The
    standard library's engine and distributions are not part of the
    header and enter as parameters; where values of type [double] are
    computed they are binary64 floats. *)

From Stdlib Require Import ZArith QArith List Lia Bool String Ascii Sorted.
From Stdlib Require Floats Uint63.
Import ListNotations.

Local Open Scope Z_scope.

(** ** The type [int] *)

Definition INT_MAX : Z := 2147483647.
Definition INT_MIN : Z := -2147483648.

Definition in_int (z : Z) : Prop := INT_MIN <= z <= INT_MAX.

(** Result of running a piece of code whose loop is given fuel:
    it returns, or it executes a signed overflow, or the fuel ran out. *)
Inductive run (A : Type) : Type :=
| Returns (a : A)
| Undefined
| OutOfFuel.

Arguments Returns {A} a.
Arguments Undefined {A}.
Arguments OutOfFuel {A}.

(** ** isprime *)

Module Prime.

(** [for (int k = 7; k * k <= val; k += 2) if (val % k == 0) return false;
     return true;]
    The product [k * k] is an [int]: when it does not fit the run is
    undefined. *)
Fixpoint isprime_loop (fuel : nat) (k val : Z) : run bool :=
  if INT_MAX <? k * k then Undefined
  else if k * k <=? val then
    if Z.rem val k =? 0 then Returns false
    else match fuel with
         | O => OutOfFuel
         | S fuel' => isprime_loop fuel' (k + 2) val
         end
  else Returns true.

Definition isprime (fuel : nat) (val : Z) : run bool :=
  if val <? 2 then Returns false
  else if Z.rem val 2 =? 0 then Returns (val =? 2)
  else if Z.rem val 3 =? 0 then Returns (val =? 3)
  else if Z.rem val 5 =? 0 then Returns (val =? 5)
  else isprime_loop fuel 7 val.

(** Fuel that covers every iteration the loop can make on an [int]. *)
Definition isprime_fuel : nat := Z.to_nat 23167.

(** The mathematical notion the function is compared with. *)
Definition is_prime (val : Z) : Prop :=
  2 <= val /\ forall d, 1 < d < val -> ~ (d | val).

Example isprime_29 : isprime isprime_fuel 29 = Returns true.
Proof. vm_compute. reflexivity. Qed.

Example isprime_49 : isprime isprime_fuel 49 = Returns false.
Proof. vm_compute. reflexivity. Qed.

Example isprime_int_max : isprime isprime_fuel INT_MAX = Undefined.
Proof. vm_compute. reflexivity. Qed.

Lemma rem_zero_divide (val k : Z) :
  k <> 0 -> (Z.rem val k =? 0) = true -> (k | val).
Proof.
  intros Hk H. apply Z.eqb_eq in H. now apply Z.rem_divide.
Qed.

Lemma rem_nonzero_not_divide (val k : Z) :
  k <> 0 -> (Z.rem val k =? 0) = false -> ~ (k | val).
Proof.
  intros Hk H D. apply Z.eqb_neq in H. apply H. now apply Z.rem_divide.
Qed.

(** A value with no divisor below [k] and [val < k * k] has no proper
    divisor at all: of two cofactors the smaller one is below [k]. *)
Lemma no_small_divisor_prime (k val : Z) :
  2 <= val -> 2 <= k -> val < k * k ->
  (forall d, 1 < d < k -> ~ (d | val)) ->
  forall d, 1 < d < val -> ~ (d | val).
Proof.
  intros Hval Hk Hsq Hsmall d Hd [q Hq].
  assert (Hqpos : 1 < q) by nia.
  assert (Hqlt : q < val) by nia.
  destruct (Z_lt_le_dec d k) as [Hdk | Hdk].
  - apply (Hsmall d); [lia | now exists q].
  - destruct (Z_lt_le_dec q k) as [Hqk | Hqk].
    + apply (Hsmall q); [lia | exists d; lia].
    + nia.
Qed.

Lemma isprime_loop_sound (fuel : nat) :
  forall k val b,
    2 <= val -> 7 <= k -> Z.odd k = true ->
    (forall d, 1 < d < k -> ~ (d | val)) ->
    isprime_loop fuel k val = Returns b ->
    (b = true <-> forall d, 1 < d < val -> ~ (d | val)).
Proof.
  induction fuel as [| fuel IH]; intros k val b Hval Hk Hodd Hinv; simpl;
    destruct (INT_MAX <? k * k); try discriminate;
    destruct (k * k <=? val) eqn:Hsq.
  - destruct (Z.rem val k =? 0) eqn:Hrem; [| discriminate].
    intros [= <-]. apply Z.leb_le in Hsq. split; [discriminate |].
    intros Hp. exfalso. apply (Hp k); [nia |].
    apply rem_zero_divide; [lia | exact Hrem].
  - intros [= <-]. apply Z.leb_gt in Hsq. split; [| reflexivity].
    intros _. apply (no_small_divisor_prime k); auto; lia.
  - destruct (Z.rem val k =? 0) eqn:Hrem.
    + intros [= <-]. apply Z.leb_le in Hsq. split; [discriminate |].
      intros Hp. exfalso. apply (Hp k); [nia |].
      apply rem_zero_divide; [lia | exact Hrem].
    + apply IH; auto; [lia | |].
      * rewrite Z.odd_add. rewrite Hodd. reflexivity.
      * intros d Hd. destruct (Z.eq_dec d k) as [-> | Hne].
        { apply rem_nonzero_not_divide; [lia | exact Hrem]. }
        destruct (Z.eq_dec d (k + 1)) as [-> | Hne'].
        { intros D. apply (Hinv 2); [lia |].
          apply Z.divide_trans with (k + 1); [| exact D].
          rewrite (Zodd_div2 k) by (now apply Zodd_bool_iff).
          exists (Z.div2 k + 1). lia. }
        apply Hinv. lia.
  - intros [= <-]. apply Z.leb_gt in Hsq. split; [| reflexivity].
    intros _. apply (no_small_divisor_prime k); auto; lia.
Qed.

(** The loop leaves by its own tests when the fuel reaches the bound. *)
Lemma isprime_loop_fuel (fuel : nat) :
  forall k val,
    0 <= k -> 46341 <= k + 2 * Z.of_nat fuel ->
    isprime_loop fuel k val <> OutOfFuel.
Proof.
  induction fuel as [| fuel IH]; intros k val Hk Hfuel; simpl.
  - destruct (INT_MAX <? k * k) eqn:Hov; [discriminate |].
    apply Z.ltb_ge in Hov. unfold INT_MAX in Hov. nia.
  - destruct (INT_MAX <? k * k); [discriminate |].
    destruct (k * k <=? val); [| discriminate].
    destruct (Z.rem val k =? 0); [discriminate |].
    apply IH; lia.
Qed.

(** Below [46339 * 46339] the loop stops before [k * k] can overflow. *)
Lemma isprime_loop_defined (fuel : nat) :
  forall k val,
    0 <= k <= 46339 -> Z.odd k = true -> val < 46339 * 46339 ->
    isprime_loop fuel k val <> Undefined.
Proof.
  induction fuel as [| fuel IH]; intros k val Hk Hodd Hval; simpl.
  - destruct (INT_MAX <? k * k) eqn:Hov.
    + apply Z.ltb_lt in Hov. unfold INT_MAX in Hov. nia.
    + destruct (k * k <=? val); [| discriminate].
      destruct (Z.rem val k =? 0); discriminate.
  - destruct (INT_MAX <? k * k) eqn:Hov.
    + apply Z.ltb_lt in Hov. unfold INT_MAX in Hov. nia.
    + destruct (k * k <=? val) eqn:Hsq; [| discriminate].
      destruct (Z.rem val k =? 0); [discriminate |].
      apply Z.leb_le in Hsq.
      apply IH; auto.
      * assert (k <> 46338) by (intros ->; discriminate Hodd).
        assert (k < 46339) by nia. lia.
      * rewrite Z.odd_add. rewrite Hodd. reflexivity.
Qed.

Lemma isprime_defined (fuel : nat) (val : Z) :
  val < 46339 * 46339 -> isprime fuel val <> Undefined.
Proof.
  intros Hval. unfold isprime.
  destruct (val <? 2); [discriminate |].
  destruct (Z.rem val 2 =? 0); [discriminate |].
  destruct (Z.rem val 3 =? 0); [discriminate |].
  destruct (Z.rem val 5 =? 0); [discriminate |].
  apply isprime_loop_defined; [lia | reflexivity | exact Hval].
Qed.

(** A run that is not undefined returns, and returns the right answer. *)
Lemma isprime_sound_when_defined (fuel : nat) (val : Z) :
  in_int val ->
  (isprime_fuel <= fuel)%nat ->
  isprime fuel val <> Undefined ->
  exists b,
    isprime fuel val = Returns b /\
    (b = true <-> is_prime val) /\
    (val < 2 -> b = false) /\
    (2 <= val -> (b = true <-> forall d, 1 < d < val -> ~ (d | val))).
Proof.
  intros _ Hfuel Hdef.
  assert (Hnf : isprime fuel val <> OutOfFuel).
  { unfold isprime.
    destruct (val <? 2); [discriminate |].
    destruct (Z.rem val 2 =? 0); [discriminate |].
    destruct (Z.rem val 3 =? 0); [discriminate |].
    destruct (Z.rem val 5 =? 0); [discriminate |].
    apply isprime_loop_fuel; [lia |].
    unfold isprime_fuel in Hfuel. lia. }
  destruct (isprime fuel val) as [b | |] eqn:Hrun; try congruence.
  clear Hdef Hnf. exists b. split; [reflexivity |].
  assert (Hmain : (val < 2 -> b = false) /\
                  (2 <= val -> (b = true <-> forall d, 1 < d < val -> ~ (d | val)))).
  { unfold isprime in Hrun.
    destruct (val <? 2) eqn:H2.
    { apply Z.ltb_lt in H2. injection Hrun as <-. split; [reflexivity | lia]. }
    apply Z.ltb_ge in H2. split; [lia | intros _].
    destruct (Z.rem val 2 =? 0) eqn:R2.
    { injection Hrun as <-. apply rem_zero_divide in R2; [| lia].
      destruct (Z.eqb_spec val 2) as [-> | Hne].
      - split; [intros _ d Hd; lia | reflexivity].
      - split; [discriminate |]. intros Hp. exfalso. apply (Hp 2); [lia | exact R2]. }
    destruct (Z.rem val 3 =? 0) eqn:R3.
    { injection Hrun as <-. apply rem_zero_divide in R3; [| lia].
      destruct (Z.eqb_spec val 3) as [-> | Hne].
      - split; [| reflexivity]. intros _ d Hd [q Hq]. assert (d = 2) by lia. subst d. lia.
      - split; [discriminate |]. intros Hp. exfalso. apply (Hp 3); [destruct R3 as [q Hq]; lia | exact R3]. }
    destruct (Z.rem val 5 =? 0) eqn:R5.
    { injection Hrun as <-. apply rem_zero_divide in R5; [| lia].
      destruct (Z.eqb_spec val 5) as [-> | Hne].
      - split; [| reflexivity]. intros _ d Hd [q Hq].
        assert (Hc : d = 2 \/ d = 3 \/ d = 4) by lia.
        destruct Hc as [-> | [-> | ->]]; lia.
      - split; [discriminate |]. intros Hp. exfalso. apply (Hp 5); [destruct R5 as [q Hq]; lia | exact R5]. }
    apply rem_nonzero_not_divide in R2; [| lia].
    apply rem_nonzero_not_divide in R3; [| lia].
    apply rem_nonzero_not_divide in R5; [| lia].
    apply (isprime_loop_sound fuel 7 val b); auto; try lia.
    intros d Hd.
    assert (Hc : d = 2 \/ d = 3 \/ d = 4 \/ d = 5 \/ d = 6) by lia.
    destruct Hc as [-> | [-> | [-> | [-> | ->]]]]; auto.
    - intros D. apply R2. apply Z.divide_trans with 4; [exists 2; lia | exact D].
    - intros D. apply R2. apply Z.divide_trans with 6; [exists 3; lia | exact D]. }
  destruct Hmain as [Hlow Hhigh].
  split; [| split; assumption].
  unfold is_prime. split.
  - intros Hb. destruct (Z_lt_le_dec val 2) as [Hlt | Hge].
    + rewrite (Hlow Hlt) in Hb. discriminate.
    + split; [exact Hge | now apply Hhigh].
  - intros [Hge Hp]. now apply Hhigh.
Qed.

(** *** Where the run overflows *)

Lemma isprime_loop_true_bound (fuel : nat) :
  forall k val,
    0 <= k -> Z.odd k = true ->
    isprime_loop fuel k val = Returns true ->
    val < 46339 * 46339.
Proof.
  assert (Hexit : forall k val,
             0 <= k -> Z.odd k = true ->
             (INT_MAX <? k * k) = false -> (k * k <=? val) = false ->
             val < 46339 * 46339).
  { intros k val Hk Hodd Hov Hsq.
    apply Z.ltb_ge in Hov. apply Z.leb_gt in Hsq. unfold INT_MAX in Hov.
    assert (k <> 46340) by (intros ->; discriminate Hodd). nia. }
  induction fuel as [| fuel IH]; intros k val Hk Hodd; simpl;
    destruct (INT_MAX <? k * k) eqn:Hov; try discriminate;
    destruct (k * k <=? val) eqn:Hsq.
  - destruct (Z.rem val k =? 0); discriminate.
  - intros _. now apply (Hexit k).
  - destruct (Z.rem val k =? 0); [discriminate |].
    apply IH; [lia |]. rewrite Z.odd_add, Hodd. reflexivity.
  - intros _. now apply (Hexit k).
Qed.

Lemma isprime_loop_false_divisor (fuel : nat) :
  forall k val,
    7 <= k ->
    isprime_loop fuel k val = Returns false ->
    exists d, 1 < d < val /\ (d | val).
Proof.
  induction fuel as [| fuel IH]; intros k val Hk; simpl;
    destruct (INT_MAX <? k * k); try discriminate;
    destruct (k * k <=? val) eqn:Hsq; try discriminate;
    destruct (Z.rem val k =? 0) eqn:Hrem; try discriminate.
  - intros _. apply Z.leb_le in Hsq. exists k. split; [nia |].
    apply rem_zero_divide; [lia | exact Hrem].
  - intros _. apply Z.leb_le in Hsq. exists k. split; [nia |].
    apply rem_zero_divide; [lia | exact Hrem].
  - apply IH. lia.
Qed.

Lemma isprime_loop_undefined_prime (fuel : nat) :
  forall k val,
    2 <= val <= INT_MAX -> 7 <= k -> Z.odd k = true ->
    (forall d, 1 < d < k -> ~ (d | val)) ->
    isprime_loop fuel k val = Undefined ->
    forall d, 1 < d < val -> ~ (d | val).
Proof.
  induction fuel as [| fuel IH]; intros k val Hval Hk Hodd Hinv; simpl;
    destruct (INT_MAX <? k * k) eqn:Hov.
  - intros _. apply Z.ltb_lt in Hov.
    apply (no_small_divisor_prime k); auto; lia.
  - destruct (k * k <=? val); [| discriminate].
    destruct (Z.rem val k =? 0); discriminate.
  - intros _. apply Z.ltb_lt in Hov.
    apply (no_small_divisor_prime k); auto; lia.
  - destruct (k * k <=? val); [| discriminate].
    destruct (Z.rem val k =? 0) eqn:Hrem; [discriminate |].
    apply IH; auto; [lia | |].
    + rewrite Z.odd_add, Hodd. reflexivity.
    + intros d Hd. destruct (Z.eq_dec d k) as [-> | Hne].
      { apply rem_nonzero_not_divide; [lia | exact Hrem]. }
      destruct (Z.eq_dec d (k + 1)) as [-> | Hne'].
      { intros D. apply (Hinv 2); [lia |].
        apply Z.divide_trans with (k + 1); [| exact D].
        rewrite (Zodd_div2 k) by (now apply Zodd_bool_iff).
        exists (Z.div2 k + 1). lia. }
      apply Hinv. lia.
Qed.

Lemma isprime_fuel_enough (fuel : nat) (val : Z) :
  (isprime_fuel <= fuel)%nat -> isprime fuel val <> OutOfFuel.
Proof.
  intros Hfuel. unfold isprime.
  destruct (val <? 2); [discriminate |].
  destruct (Z.rem val 2 =? 0); [discriminate |].
  destruct (Z.rem val 3 =? 0); [discriminate |].
  destruct (Z.rem val 5 =? 0); [discriminate |].
  apply isprime_loop_fuel; [lia |].
  unfold isprime_fuel in Hfuel. lia.
Qed.

(** The inputs on which [k * k] overflows are exactly the primes from
    [46339 * 46339 = 2147302921] up to [INT_MAX]: on those the loop walks
    past 46339 without finding a divisor; on every other [int] it returns. *)
Theorem isprime_overflows_iff (fuel : nat) (val : Z) :
  in_int val ->
  (isprime_fuel <= fuel)%nat ->
  (isprime fuel val = Undefined <-> 46339 * 46339 <= val /\ is_prime val).
Proof.
  intros Hint Hfuel. split.
  - intros Hrun. split.
    + destruct (Z_lt_le_dec val (46339 * 46339)) as [Hlt | Hge]; [| exact Hge].
      exfalso. now apply (isprime_defined fuel val Hlt).
    + unfold isprime in Hrun.
      destruct (val <? 2) eqn:H2; [discriminate |]. apply Z.ltb_ge in H2.
      destruct (Z.rem val 2 =? 0) eqn:R2; [discriminate |].
      destruct (Z.rem val 3 =? 0) eqn:R3; [discriminate |].
      destruct (Z.rem val 5 =? 0) eqn:R5; [discriminate |].
      apply rem_nonzero_not_divide in R2; [| lia].
      apply rem_nonzero_not_divide in R3; [| lia].
      apply rem_nonzero_not_divide in R5; [| lia].
      split; [exact H2 |].
      apply (isprime_loop_undefined_prime fuel 7 val); auto;
        try (unfold in_int in Hint; lia).
      intros d Hd.
      assert (Hc : d = 2 \/ d = 3 \/ d = 4 \/ d = 5 \/ d = 6) by lia.
      destruct Hc as [-> | [-> | [-> | [-> | ->]]]]; auto.
      * intros D. apply R2. apply Z.divide_trans with 4; [exists 2; lia | exact D].
      * intros D. apply R2. apply Z.divide_trans with 6; [exists 3; lia | exact D].
  - intros [Hge [H2 Hp]].
    pose proof (isprime_fuel_enough fuel val Hfuel) as Hnf.
    destruct (isprime fuel val) as [b | |] eqn:Hrun; [| reflexivity | congruence].
    exfalso. clear Hnf. unfold isprime in Hrun.
    destruct (val <? 2) eqn:Hlow; [apply Z.ltb_lt in Hlow; lia |].
    destruct (Z.rem val 2 =? 0) eqn:R2.
    { apply rem_zero_divide in R2; [| lia]. apply (Hp 2); [lia | exact R2]. }
    destruct (Z.rem val 3 =? 0) eqn:R3.
    { apply rem_zero_divide in R3; [| lia]. apply (Hp 3); [lia | exact R3]. }
    destruct (Z.rem val 5 =? 0) eqn:R5.
    { apply rem_zero_divide in R5; [| lia]. apply (Hp 5); [lia | exact R5]. }
    destruct b.
    + pose proof (isprime_loop_true_bound fuel 7 val ltac:(lia) eq_refl Hrun). lia.
    + destruct (isprime_loop_false_divisor fuel 7 val ltac:(lia) Hrun) as (d & Hd & Hdiv).
      now apply (Hp d).
Qed.

Lemma isprime_overflows_iff_witness :
  isprime isprime_fuel INT_MAX = Undefined
  <-> 46339 * 46339 <= INT_MAX /\ is_prime INT_MAX.
Proof.
  apply (isprime_overflows_iff isprime_fuel INT_MAX).
  - unfold in_int, INT_MIN, INT_MAX. lia.
  - apply Nat.le_refl.
Defined.

(** *** The answer on the inputs that do not overflow *)

(** The condition on the input, in terms of the input alone: walking the
    odd [k] from 7 on, a square [k * k] above [val] is met while [k * k]
    still fits an [int]. *)
Definition squares_pass_within_int (val : Z) : Prop :=
  exists k, 7 <= k /\ Z.odd k = true /\ k * k <= INT_MAX /\ val < k * k.

Lemma squares_pass_bound (val : Z) :
  squares_pass_within_int val -> val < 46339 * 46339.
Proof.
  intros (k & Hk & Hodd & Hsq & Hlt). unfold INT_MAX in Hsq.
  assert (k <> 46340) by (intros ->; discriminate Hodd). nia.
Qed.

Lemma isprime_undefined_is_prime (fuel : nat) (val : Z) :
  in_int val -> isprime fuel val = Undefined -> is_prime val.
Proof.
  intros Hint Hrun. unfold isprime in Hrun.
  destruct (val <? 2) eqn:H2; [discriminate |]. apply Z.ltb_ge in H2.
  destruct (Z.rem val 2 =? 0) eqn:R2; [discriminate |].
  destruct (Z.rem val 3 =? 0) eqn:R3; [discriminate |].
  destruct (Z.rem val 5 =? 0) eqn:R5; [discriminate |].
  apply rem_nonzero_not_divide in R2; [| lia].
  apply rem_nonzero_not_divide in R3; [| lia].
  apply rem_nonzero_not_divide in R5; [| lia].
  split; [exact H2 |].
  apply (isprime_loop_undefined_prime fuel 7 val); auto;
    try (unfold in_int in Hint; lia).
  intros d Hd.
  assert (Hc : d = 2 \/ d = 3 \/ d = 4 \/ d = 5 \/ d = 6) by lia.
  destruct Hc as [-> | [-> | [-> | [-> | ->]]]]; auto.
  - intros D. apply R2. apply Z.divide_trans with 4; [exists 2; lia | exact D].
  - intros D. apply R2. apply Z.divide_trans with 6; [exists 3; lia | exact D].
Qed.

(** C8. For every [int] on which the loop index does not overflow, that
    is, the squares [k * k] pass [val] while they still fit an [int], or
    [val] is not a prime (a divisor or an early test ends the run first),
    [isprime] returns, and returns [true] exactly when [val] is prime:
    [false] below 2, and from 2 on [true] iff no [d] with [1 < d < val]
    divides [val]. *)
Theorem isprime_correct (fuel : nat) (val : Z) :
  in_int val ->
  (isprime_fuel <= fuel)%nat ->
  squares_pass_within_int val \/ ~ is_prime val ->
  exists b,
    isprime fuel val = Returns b /\
    (b = true <-> is_prime val) /\
    (val < 2 -> b = false) /\
    (2 <= val -> (b = true <-> forall d, 1 < d < val -> ~ (d | val))).
Proof.
  intros Hint Hfuel Hcond.
  apply isprime_sound_when_defined; auto.
  intros Hund. destruct Hcond as [Hsq | Hnp].
  - apply (isprime_defined fuel val); [| exact Hund].
    now apply squares_pass_bound.
  - apply Hnp. now apply (isprime_undefined_is_prime fuel val).
Qed.

Example isprime_1000003 : isprime isprime_fuel 1000003 = Returns true.
Proof. vm_compute. reflexivity. Qed.

Example isprime_1002001 : isprime isprime_fuel 1002001 = Returns false.
Proof. vm_compute. reflexivity. Qed.

Lemma isprime_correct_witness :
  exists b,
    isprime isprime_fuel 1000003 = Returns b /\
    (b = true <-> is_prime 1000003) /\
    (1000003 < 2 -> b = false) /\
    (2 <= 1000003 ->
     (b = true <-> forall d, 1 < d < 1000003 -> ~ (d | 1000003))).
Proof.
  apply (isprime_correct isprime_fuel 1000003).
  - unfold in_int, INT_MIN, INT_MAX. lia.
  - apply Nat.le_refl.
  - left. exists 1001. unfold INT_MAX. repeat split; try reflexivity; lia.
Defined.

End Prime.

(** ** ndigit *)

Module Digits.

(** [while (val != 0) { val /= 10; ++digit_count; }]
    Integer division truncates towards zero, which is [Z.quot]. *)
Fixpoint ndigit_loop (fuel : nat) (val digit_count : Z) : option Z :=
  if val =? 0 then Some digit_count
  else match fuel with
       | O => None
       | S fuel' => ndigit_loop fuel' (Z.quot val 10) (digit_count + 1)
       end.

Definition ndigit (fuel : nat) (val : Z) : option Z :=
  if val =? 0 then Some 1 else ndigit_loop fuel val 0.

(** Ten iterations are enough for any 32-bit value. *)
Definition ndigit_fuel : nat := 10.

Example ndigit_12345 : ndigit ndigit_fuel 12345 = Some 5.
Proof. reflexivity. Qed.

Example ndigit_neg987 : ndigit ndigit_fuel (-987) = Some 3.
Proof. reflexivity. Qed.

Example ndigit_zero : ndigit ndigit_fuel 0 = Some 1.
Proof. reflexivity. Qed.

Example ndigit_int_min : ndigit ndigit_fuel INT_MIN = Some 10.
Proof. reflexivity. Qed.

Lemma ndigit_loop_opp (fuel : nat) :
  forall val c, ndigit_loop fuel (- val) c = ndigit_loop fuel val c.
Proof.
  induction fuel as [| fuel IH]; intros val c; simpl.
  - destruct (Z.eqb_spec val 0) as [-> | Hne]; [reflexivity |].
    destruct (Z.eqb_spec (- val) 0); [lia | reflexivity].
  - destruct (Z.eqb_spec val 0) as [-> | Hne]; [reflexivity |].
    destruct (Z.eqb_spec (- val) 0); [lia |].
    rewrite Z.quot_opp_l by lia. apply IH.
Qed.

Lemma ndigit_loop_pos (fuel : nat) :
  forall val c,
    0 < val < 10 ^ Z.of_nat fuel ->
    exists d, 1 <= d <= Z.of_nat fuel /\
              ndigit_loop fuel val c = Some (c + d) /\
              10 ^ (d - 1) <= val < 10 ^ d.
Proof.
  induction fuel as [| fuel IH]; intros val c Hval.
  - simpl in Hval. lia.
  - cbn [ndigit_loop].
    destruct (Z.eqb_spec val 0) as [-> | _]; [lia |].
    rewrite Nat2Z.inj_succ, Z.pow_succ_r in Hval by lia.
    assert (Hq : 0 <= Z.quot val 10 < 10 ^ Z.of_nat fuel).
    { rewrite Z.quot_div_nonneg by lia. split.
      - apply Z.div_pos; lia.
      - apply Z.div_lt_upper_bound; lia. }
    assert (Hval10 : val = 10 * Z.quot val 10 + Z.rem val 10)
      by (apply Z.quot_rem'; lia).
    assert (Hr : 0 <= Z.rem val 10 < 10) by (apply Z.rem_bound_pos; lia).
    destruct (Z.eq_dec (Z.quot val 10) 0) as [Hz | Hnz].
    + exists 1. rewrite Hz. split; [lia |]. split.
      * destruct fuel; reflexivity.
      * simpl. lia.
    + destruct (IH (Z.quot val 10) (c + 1)) as (d & Hd & Hrun & Hpow); [lia |].
      exists (d + 1). split; [lia |]. split.
      * rewrite Hrun. f_equal. lia.
      * replace (d + 1 - 1) with (Z.succ (d - 1)) by lia.
        replace (d + 1) with (Z.succ d) by lia.
        rewrite !Z.pow_succ_r by lia. lia.
Qed.

Lemma digits_unique (v d d' : Z) :
  1 <= d -> 1 <= d' ->
  10 ^ (d - 1) <= v < 10 ^ d ->
  10 ^ (d' - 1) <= v < 10 ^ d' ->
  d' = d.
Proof.
  intros Hd Hd' H H'.
  destruct (Z.lt_trichotomy d d') as [Hlt | [-> | Hgt]]; [| reflexivity |].
  - assert (10 ^ d <= 10 ^ (d' - 1)) by (apply Z.pow_le_mono_r; lia). lia.
  - assert (10 ^ d' <= 10 ^ (d - 1)) by (apply Z.pow_le_mono_r; lia). lia.
Qed.

Lemma ndigit_opp (fuel : nat) (val : Z) :
  ndigit fuel (- val) = ndigit fuel val.
Proof.
  unfold ndigit.
  destruct (Z.eqb_spec val 0) as [-> | Hne]; [reflexivity |].
  destruct (Z.eqb_spec (- val) 0); [lia |].
  apply ndigit_loop_opp.
Qed.

Lemma ndigit_abs (fuel : nat) (val : Z) :
  ndigit fuel val = ndigit fuel (Z.abs val).
Proof.
  destruct (Z.abs_spec val) as [[_ ->] | [_ ->]];
    [reflexivity | symmetry; apply ndigit_opp].
Qed.

(** C9. [ndigit] ends on every [int] (ten iterations suffice, the most
    negative value included) and returns the number of decimal digits of
    [|val|]: 1 for 0, the same for [val] and [-val], and for [val <> 0]
    the unique [d >= 1] with [10^(d-1) <= |val| < 10^d]. *)
Theorem ndigit_correct (fuel : nat) (val : Z) :
  in_int val ->
  (ndigit_fuel <= fuel)%nat ->
  exists d,
    ndigit fuel val = Some d /\
    (val = 0 -> d = 1) /\
    (in_int (- val) -> ndigit fuel (- val) = Some d) /\
    (val <> 0 ->
     1 <= d /\ 10 ^ (d - 1) <= Z.abs val < 10 ^ d /\
     forall d', 1 <= d' -> 10 ^ (d' - 1) <= Z.abs val < 10 ^ d' -> d' = d).
Proof.
  intros Hint Hfuel.
  destruct (Z.eq_dec val 0) as [-> | Hne].
  - exists 1. repeat split; try reflexivity; try lia.
  - assert (Habs : 0 < Z.abs val < 10 ^ Z.of_nat fuel).
    { split; [lia |].
      apply Z.lt_le_trans with (10 ^ 10).
      - unfold in_int, INT_MIN, INT_MAX in Hint. change (10 ^ 10) with 10000000000. lia.
      - apply Z.pow_le_mono_r; [lia |]. unfold ndigit_fuel in Hfuel. lia. }
    destruct (ndigit_loop_pos fuel (Z.abs val) 0 Habs) as (d & Hd & Hrun & Hpow).
    assert (Hnd : ndigit fuel val = Some d).
    { rewrite ndigit_abs. unfold ndigit.
      destruct (Z.eqb_spec (Z.abs val) 0); [lia |]. exact Hrun. }
    exists d. split; [exact Hnd |]. split; [lia |]. split.
    + intros _. rewrite ndigit_opp. exact Hnd.
    + intros _. split; [lia |]. split; [exact Hpow |].
      intros d' Hd' Hpow'. apply (digits_unique (Z.abs val)); auto; lia.
Qed.

Lemma ndigit_correct_witness :
  exists d,
    ndigit ndigit_fuel INT_MIN = Some d /\
    (INT_MIN = 0 -> d = 1) /\
    (in_int (- INT_MIN) -> ndigit ndigit_fuel (- INT_MIN) = Some d) /\
    (INT_MIN <> 0 ->
     1 <= d /\ 10 ^ (d - 1) <= Z.abs INT_MIN < 10 ^ d /\
     forall d', 1 <= d' -> 10 ^ (d' - 1) <= Z.abs INT_MIN < 10 ^ d' -> d' = d).
Proof.
  apply (ndigit_correct ndigit_fuel INT_MIN).
  - unfold in_int, INT_MIN, INT_MAX. lia.
  - apply Nat.le_refl.
Defined.

(** *** Size and order of the digit count *)

Lemma ndigit_digits (fuel : nat) (val : Z) :
  in_int val -> val <> 0 -> (ndigit_fuel <= fuel)%nat ->
  exists d, ndigit fuel val = Some d /\ 1 <= d <= 10 /\
            10 ^ (d - 1) <= Z.abs val < 10 ^ d.
Proof.
  intros Hint Hne Hfuel.
  assert (Hsmall : Z.abs val < 10 ^ 10).
  { unfold in_int, INT_MIN, INT_MAX in Hint.
    change (10 ^ 10) with 10000000000. lia. }
  assert (Habs : 0 < Z.abs val < 10 ^ Z.of_nat fuel).
  { split; [lia |]. apply Z.lt_le_trans with (10 ^ 10); [exact Hsmall |].
    apply Z.pow_le_mono_r; [lia |]. unfold ndigit_fuel in Hfuel. lia. }
  destruct (ndigit_loop_pos fuel (Z.abs val) 0 Habs) as (d & Hd & Hrun & Hpow).
  exists d. split; [| split; [split; [lia |] | exact Hpow]].
  - rewrite ndigit_abs. unfold ndigit.
    destruct (Z.eqb_spec (Z.abs val) 0); [lia | exact Hrun].
  - destruct (Z_le_gt_dec d 10) as [Hle | Hgt]; [exact Hle |].
    assert (10 ^ 10 <= 10 ^ (d - 1)) by (apply Z.pow_le_mono_r; lia). lia.
Qed.

(** On every [int] the count lies between 1 and 10, and it is the same
    for every amount of fuel from ten on: the loop never needs more. *)
Theorem ndigit_between_1_and_10 (fuel : nat) (val : Z) :
  in_int val ->
  (ndigit_fuel <= fuel)%nat ->
  exists d, ndigit fuel val = Some d /\ 1 <= d <= 10 /\
            ndigit ndigit_fuel val = Some d.
Proof.
  intros Hint Hfuel.
  destruct (Z.eq_dec val 0) as [-> | Hne].
  - exists 1. repeat split; lia.
  - destruct (ndigit_digits fuel val Hint Hne Hfuel) as (d & Hrun & Hd & Hpow).
    destruct (ndigit_digits ndigit_fuel val Hint Hne (Nat.le_refl _))
      as (d0 & Hrun0 & Hd0 & Hpow0).
    exists d. repeat split; try lia; [exact Hrun |].
    rewrite Hrun0. f_equal. apply (digits_unique (Z.abs val)); auto; lia.
Qed.

Lemma ndigit_between_1_and_10_witness :
  exists d, ndigit 25 (-987) = Some d /\ 1 <= d <= 10 /\
            ndigit ndigit_fuel (-987) = Some d.
Proof.
  apply (ndigit_between_1_and_10 25 (-987)).
  - unfold in_int, INT_MIN, INT_MAX. lia.
  - unfold ndigit_fuel. lia.
Defined.

(** A value that is larger in absolute value never has fewer digits. *)
Theorem ndigit_monotone (fuel : nat) (a b : Z) :
  in_int a -> in_int b ->
  (ndigit_fuel <= fuel)%nat ->
  Z.abs a <= Z.abs b ->
  exists da db, ndigit fuel a = Some da /\ ndigit fuel b = Some db /\ da <= db.
Proof.
  intros Ha Hb Hfuel Hab.
  destruct (Z.eq_dec b 0) as [-> | Hbne].
  - assert (a = 0) by lia. subst a. exists 1, 1. repeat split; lia.
  - destruct (ndigit_digits fuel b Hb Hbne Hfuel) as (db & Hrb & Hdb & Hpb).
    destruct (Z.eq_dec a 0) as [-> | Hane].
    + exists 1, db. repeat split; [exact Hrb | lia].
    + destruct (ndigit_digits fuel a Ha Hane Hfuel) as (da & Hra & Hda & Hpa).
      exists da, db. repeat split; [exact Hra | exact Hrb |].
      destruct (Z_le_gt_dec da db) as [Hle | Hgt]; [exact Hle |].
      assert (10 ^ db <= 10 ^ (da - 1)) by (apply Z.pow_le_mono_r; lia). lia.
Qed.

Lemma ndigit_monotone_witness :
  exists da db, ndigit ndigit_fuel 99 = Some da /\
                ndigit ndigit_fuel INT_MIN = Some db /\ da <= db.
Proof.
  apply (ndigit_monotone ndigit_fuel 99 INT_MIN).
  - unfold in_int, INT_MIN, INT_MAX. lia.
  - unfold in_int, INT_MIN, INT_MAX. lia.
  - apply Nat.le_refl.
  - unfold INT_MIN. lia.
Defined.

(** Appending a zero digit adds one to the count, as long as the product
    is still an [int]. *)
Theorem ndigit_times_ten (fuel : nat) (val : Z) :
  in_int val -> in_int (10 * val) -> val <> 0 ->
  (ndigit_fuel <= fuel)%nat ->
  exists d, ndigit fuel val = Some d /\ ndigit fuel (10 * val) = Some (d + 1).
Proof.
  intros Hint Hint10 Hne Hfuel.
  destruct (ndigit_digits fuel val Hint Hne Hfuel) as (d & Hrun & Hd & Hpow).
  destruct (ndigit_digits fuel (10 * val) Hint10 ltac:(lia) Hfuel)
    as (d10 & Hrun10 & Hd10 & Hpow10).
  exists d. split; [exact Hrun |]. rewrite Hrun10. f_equal.
  apply (digits_unique (Z.abs (10 * val))); try lia.
  replace (d + 1 - 1) with (Z.succ (d - 1)) by lia.
  replace (d + 1) with (Z.succ d) by lia.
  rewrite !Z.pow_succ_r by lia. rewrite Z.abs_mul. simpl (Z.abs 10). lia.
Qed.

Lemma ndigit_times_ten_witness :
  exists d, ndigit ndigit_fuel (-4711) = Some d /\
            ndigit ndigit_fuel (10 * -4711) = Some (d + 1).
Proof.
  apply (ndigit_times_ten ndigit_fuel (-4711)).
  - unfold in_int, INT_MIN, INT_MAX. lia.
  - unfold in_int, INT_MIN, INT_MAX. lia.
  - lia.
  - apply Nat.le_refl.
Defined.

End Digits.

(** ** fcs: fill a container from a set of generated values *)

Module Fcs.

Section WithValueType.

(** [C::value_type] with its [operator<], the order [std::set] sorts by. *)
Variable T : Type.
Variable ltb : T -> T -> bool.

Hypothesis ltb_irrefl : forall x, ltb x x = false.
Hypothesis ltb_trans :
  forall x y z, ltb x y = true -> ltb y z = true -> ltb x z = true.
Hypothesis ltb_total :
  forall x y, ltb x y = false -> ltb y x = false -> x = y.

(** The callable [func]: each call returns a value and may change the
    callable's own state. *)
Variable F : Type.
Variable func : F -> T * F.

Definition lt (x y : T) : Prop := ltb x y = true.

(** [std::set<T>]: the elements in increasing order, no two equivalent.
    [s.insert(x)] leaves the set alone when an equivalent key is there. *)
Fixpoint set_insert (x : T) (s : list T) : list T :=
  match s with
  | [] => [x]
  | y :: t =>
      if ltb x y then x :: y :: t
      else if ltb y x then y :: set_insert x t
      else y :: t
  end.

(** [while (s.size() != n) s.insert(func());] *)
Fixpoint fcs_loop (fuel : nat) (n : nat) (s : list T) (f : F)
  : option (list T) :=
  if Nat.eqb (List.length s) n then Some s
  else match fuel with
       | O => None
       | S fuel' =>
           let (v, f') := func f in fcs_loop fuel' n (set_insert v s) f'
       end.

(** [fcs(c, n, func)]: the new contents of [c] ([c.assign(s.begin(),
    s.end())]), or [None] while the loop is still running. *)
Definition fcs (fuel : nat) (c : list T) (n : nat) (f : F) : option (list T) :=
  match fcs_loop fuel n [] f with
  | Some s => Some s
  | None => None
  end.

(** The values returned by the first [k] calls of [func]. *)
Fixpoint outputs (k : nat) (f : F) : list T :=
  match k with
  | O => []
  | S k' => let (v, f') := func f in v :: outputs k' f'
  end.

(** [l] holds at least [n] pairwise-distinct values. *)
Definition has_distinct (n : nat) (l : list T) : Prop :=
  exists d, NoDup d /\ incl d l /\ (n <= List.length d)%nat.

Lemma set_insert_In (x : T) (s : list T) :
  forall y, In y (set_insert x s) <-> y = x \/ In y s.
Proof.
  induction s as [| a t IH]; intros y; simpl.
  - intuition.
  - destruct (ltb x a) eqn:Hxa; [simpl; intuition |].
    destruct (ltb a x) eqn:Hax.
    + simpl. rewrite IH. intuition.
    + assert (x = a) by (apply ltb_total; assumption). subst a.
      simpl. intuition.
Qed.

Lemma set_insert_length_le (x : T) (s : list T) :
  (List.length s <= List.length (set_insert x s) <= S (List.length s))%nat.
Proof.
  induction s as [| a t IH]; simpl; [lia |].
  destruct (ltb x a); [simpl; lia |].
  destruct (ltb a x); simpl; lia.
Qed.

Lemma set_insert_sorted (x : T) (s : list T) :
  StronglySorted lt s -> StronglySorted lt (set_insert x s).
Proof.
  induction s as [| a t IH]; intros Hs; simpl.
  - repeat constructor.
  - inversion Hs as [| ? ? Ht Ha]; subst.
    destruct (ltb x a) eqn:Hxa.
    + constructor; [exact Hs |]. constructor; [exact Hxa |].
      rewrite Forall_forall in *. intros z Hz.
      apply ltb_trans with a; [exact Hxa | now apply Ha].
    + destruct (ltb a x) eqn:Hax; [| exact Hs].
      constructor; [now apply IH |].
      rewrite Forall_forall in *. intros z Hz.
      apply set_insert_In in Hz. destruct Hz as [-> | Hz]; [exact Hax | now apply Ha].
Qed.

Lemma sorted_NoDup (s : list T) : StronglySorted lt s -> NoDup s.
Proof.
  induction 1 as [| a t Ht IH Ha]; constructor; [| exact IH].
  intros Hin. rewrite Forall_forall in Ha. specialize (Ha a Hin).
  unfold lt in Ha. rewrite ltb_irrefl in Ha. discriminate.
Qed.

(** What the loop leaves in [s] when it stops. *)
Lemma fcs_loop_post (n : nat) (fuel : nat) :
  forall s f r,
    StronglySorted lt s ->
    fcs_loop fuel n s f = Some r ->
    List.length r = n /\ StronglySorted lt r /\
    exists k, (k <= fuel)%nat /\
              forall x, In x r <-> In x s \/ In x (outputs k f).
Proof.
  induction fuel as [| fuel IH]; intros s f r Hs; simpl.
  - destruct (Nat.eqb_spec (List.length s) n) as [Hn | _]; [| discriminate].
    intros [= <-]. repeat split; auto. exists O. simpl. intuition.
  - destruct (Nat.eqb_spec (List.length s) n) as [Hn | _].
    + intros [= <-]. repeat split; auto. exists O. simpl. split; [lia | intuition].
    + destruct (func f) as [v f'] eqn:Hf. intros Hrun.
      destruct (IH _ _ _ (set_insert_sorted v s Hs) Hrun) as (Hlen & Hsorted & k & Hk & Hin).
      repeat split; auto. exists (S k). split; [lia |].
      intros x. rewrite Hin, set_insert_In. simpl. rewrite Hf. simpl. intuition.
Qed.

(** The set grows by at most one per call, so once the calls made so far
    hold [n] distinct values the size has passed through [n] exactly. *)
Lemma fcs_loop_stops (n : nat) (k : nat) :
  forall fuel s f,
    (k <= fuel)%nat ->
    (List.length s <= n)%nat ->
    StronglySorted lt s ->
    has_distinct n (s ++ outputs k f) ->
    exists r, fcs_loop fuel n s f = Some r.
Proof.
  induction k as [| k IH]; intros fuel s f Hk Hlen Hs (d & Hd & Hincl & Hnd).
  - simpl in Hincl. rewrite app_nil_r in Hincl.
    assert (List.length d <= List.length s)%nat by (apply NoDup_incl_length; assumption).
    assert (Hn : List.length s = n) by lia.
    exists s. destruct fuel; simpl; rewrite Hn, Nat.eqb_refl; reflexivity.
  - destruct fuel as [| fuel]; [lia |]. simpl.
    destruct (Nat.eqb_spec (List.length s) n) as [Hn | Hn]; [now exists s |].
    simpl in Hincl. destruct (func f) as [v f'] eqn:Hf.
    apply IH.
    + lia.
    + pose proof (set_insert_length_le v s). lia.
    + now apply set_insert_sorted.
    + exists d. repeat split; auto.
      intros x Hx. specialize (Hincl x Hx).
      rewrite in_app_iff in *. rewrite set_insert_In. simpl in Hincl. intuition.
Qed.

Lemma outputs_prefix (k : nat) :
  forall fuel f, (k <= fuel)%nat -> incl (outputs k f) (outputs fuel f).
Proof.
  induction k as [| k IH]; intros fuel f Hk x Hx; [destruct Hx |].
  destruct fuel as [| fuel]; [lia |].
  simpl in *. destruct (func f) as [v f'].
  destruct Hx as [-> | Hx]; [now left | right].
  apply (IH fuel f'); [lia | exact Hx].
Qed.

(** C10. When [fcs] returns, [c] holds exactly [n] values, pairwise
    distinct and in strictly increasing order, all of them outputs of
    [func] and none taken from the old contents of [c]; it can return only
    if the calls made produced [n] distinct values, and it does return as
    soon as [n] distinct values are among the outputs. *)
Theorem fcs_correct (fuel : nat) (c : list T) (n : nat) (f : F) :
  (forall c',
      fcs fuel c n f = Some c' ->
      List.length c' = n /\ NoDup c' /\ StronglySorted lt c' /\
      (forall c0, fcs fuel c0 n f = Some c') /\
      incl c' (outputs fuel f) /\
      has_distinct n (outputs fuel f)) /\
  (forall k,
      (k <= fuel)%nat -> has_distinct n (outputs k f) ->
      exists c', fcs fuel c n f = Some c').
Proof.
  split.
  - intros c' Hrun. unfold fcs in *.
    destruct (fcs_loop fuel n [] f) as [s |] eqn:Hloop; [| discriminate].
    injection Hrun as <-.
    destruct (fcs_loop_post n fuel [] f s (SSorted_nil lt) Hloop)
      as (Hlen & Hsorted & k & Hk & Hin).
    assert (Hnodup : NoDup s) by now apply sorted_NoDup.
    assert (Hincl : incl s (outputs fuel f)).
    { intros x Hx. apply (outputs_prefix k fuel f Hk).
      apply Hin in Hx. destruct Hx as [[] | Hx]. exact Hx. }
    repeat split; auto.
    exists s. repeat split; auto. lia.
  - intros k Hk Hdist. unfold fcs.
    destruct (fcs_loop_stops n k fuel [] f Hk) as [r Hr].
    + simpl. lia.
    + constructor.
    + exact Hdist.
    + rewrite Hr. now exists r.
Qed.

(** *** How many calls the loop makes *)

Lemma fcs_loop_calls (n : nat) (fuel : nat) :
  forall s f r,
    (List.length s <= n)%nat ->
    fcs_loop fuel n s f = Some r ->
    exists k, (k <= fuel)%nat /\
              (forall x, In x r <-> In x s \/ In x (outputs k f)) /\
              forall j, (j < k)%nat -> ~ has_distinct n (s ++ outputs j f).
Proof.
  induction fuel as [| fuel IH]; intros s f r Hlen; simpl.
  - destruct (Nat.eqb_spec (List.length s) n) as [Hn | _]; [| discriminate].
    intros [= <-]. exists O. split; [lia |]. split; [simpl; intuition | lia].
  - destruct (Nat.eqb_spec (List.length s) n) as [Hn | Hn].
    + intros [= <-]. exists O. split; [lia |]. split; [simpl; intuition | lia].
    + destruct (func f) as [v f'] eqn:Hf. intros Hrun.
      assert (Hlen' : (List.length (set_insert v s) <= n)%nat)
        by (pose proof (set_insert_length_le v s); lia).
      destruct (IH _ _ _ Hlen' Hrun) as (k & Hk & Hin & Hmin).
      exists (S k). split; [lia |]. split.
      * intros x. rewrite Hin, set_insert_In. simpl. rewrite Hf. simpl. intuition.
      * intros j Hj (d & Hd & Hincl & Hnd).
        destruct j as [| j].
        { simpl in Hincl. rewrite app_nil_r in Hincl.
          pose proof (NoDup_incl_length Hd Hincl). lia. }
        apply (Hmin j); [lia |]. exists d. repeat split; auto.
        intros x Hx. specialize (Hincl x Hx). simpl in Hincl. rewrite Hf in Hincl.
        rewrite in_app_iff in *. rewrite set_insert_In. simpl in Hincl. intuition.
Qed.

(** [fcs] stops calling [func] at the first call after which [n] distinct
    values have been seen: the values it leaves in [c] are those of the
    first [k] calls, and no shorter run of calls held [n] distinct values. *)
Theorem fcs_calls_no_more_than_needed
  (fuel : nat) (c c' : list T) (n : nat) (f : F) :
  fcs fuel c n f = Some c' ->
  exists k, (k <= fuel)%nat /\
            (forall x, In x c' <-> In x (outputs k f)) /\
            has_distinct n (outputs k f) /\
            forall j, (j < k)%nat -> ~ has_distinct n (outputs j f).
Proof.
  unfold fcs. destruct (fcs_loop fuel n [] f) as [s |] eqn:Hloop; [| discriminate].
  intros [= <-].
  destruct (fcs_loop_calls n fuel [] f s (Nat.le_0_l n) Hloop) as (k & Hk & Hin & Hmin).
  destruct (fcs_loop_post n fuel [] f s (SSorted_nil lt) Hloop) as (Hlen & Hsorted & _).
  exists k. split; [exact Hk |]. split; [| split].
  - intros x. rewrite Hin. simpl. intuition.
  - exists s. split; [now apply sorted_NoDup |]. split; [| lia].
    intros x Hx. apply Hin in Hx. destruct Hx as [[] | Hx]. exact Hx.
  - intros j Hj. exact (Hmin j Hj).
Qed.

End WithValueType.

(** An instance: [int] values and a callable that cycles through 0, 1, 2. *)
Definition cycle3 (i : Z) : Z * Z := (i mod 3, i + 1).

Lemma Zltb_irrefl (x : Z) : (x <? x) = false.
Proof. apply Z.ltb_irrefl. Qed.

Lemma Zltb_trans (x y z : Z) :
  (x <? y) = true -> (y <? z) = true -> (x <? z) = true.
Proof. rewrite !Z.ltb_lt. lia. Qed.

Lemma Zltb_total (x y : Z) : (x <? y) = false -> (y <? x) = false -> x = y.
Proof. rewrite !Z.ltb_ge. lia. Qed.

Example fcs_cycle3 : fcs Z Z.ltb Z cycle3 5 [9; 9; 9; 9] 3 0 = Some [0; 1; 2].
Proof. reflexivity. Qed.

Example fcs_cycle3_starved : fcs Z Z.ltb Z cycle3 50 [] 4 0 = None.
Proof. reflexivity. Qed.

Lemma fcs_correct_witness :
  (forall c',
      fcs Z Z.ltb Z cycle3 5 [9; 9; 9; 9] 3 0 = Some c' ->
      List.length c' = 3%nat /\ NoDup c' /\ StronglySorted (lt Z Z.ltb) c' /\
      (forall c0, fcs Z Z.ltb Z cycle3 5 c0 3 0 = Some c') /\
      incl c' (outputs Z Z cycle3 5 0) /\
      has_distinct Z 3 (outputs Z Z cycle3 5 0)) /\
  (forall k,
      (k <= 5)%nat -> has_distinct Z 3 (outputs Z Z cycle3 k 0) ->
      exists c', fcs Z Z.ltb Z cycle3 5 [9; 9; 9; 9] 3 0 = Some c').
Proof.
  apply (fcs_correct Z Z.ltb Zltb_irrefl Zltb_trans Zltb_total Z cycle3
           5 [9; 9; 9; 9] 3 0).
Defined.

Lemma fcs_calls_no_more_than_needed_witness :
  exists k, (k <= 5)%nat /\
            (forall x, In x [0; 1; 2] <-> In x (outputs Z Z cycle3 k 0)) /\
            has_distinct Z 3 (outputs Z Z cycle3 k 0) /\
            forall j, (j < k)%nat -> ~ has_distinct Z 3 (outputs Z Z cycle3 j 0).
Proof.
  apply (fcs_calls_no_more_than_needed Z Z.ltb Zltb_irrefl Zltb_trans Zltb_total
           Z cycle3 5 [9; 9; 9; 9] [0; 1; 2] 3 0).
  reflexivity.
Defined.

End Fcs.

(** ** rfill: fill a container up to a size *)

Module Rfill.

Section WithElements.

Variable T : Type.

(** The callable [frand], as [func] of [fcs]. *)
Variable F : Type.
Variable frand : F -> T * F.

(** The values of the first calls of [frand]. *)
Definition outputs : nat -> F -> list T := Fcs.outputs T F frand.

(** The generic overload on a sequence container ([std::vector],
    [std::list], [std::deque]), where [c.insert(c.end(), x)] appends:
    [while (c.size() < n) c.insert(c.end(), frand());] *)
Fixpoint rfill (fuel : nat) (c : list T) (n : nat) (f : F) : option (list T) :=
  if Nat.ltb (List.length c) n then
    match fuel with
    | O => None
    | S fuel' => let (v, f') := frand f in rfill fuel' (c ++ [v]) n f'
    end
  else Some c.

(** The overload for [std::forward_list]:
    [while (n--) c.insert_after(c.before_begin(), frand());] *)
Fixpoint rfill_forward_list (c : list T) (n : nat) (f : F) : list T :=
  match n with
  | O => c
  | S n' => let (v, f') := frand f in rfill_forward_list (v :: c) n' f'
  end.

Lemma rfill_appends (fuel : nat) :
  forall c n f,
    (n - List.length c <= fuel)%nat ->
    rfill fuel c n f = Some (c ++ outputs (n - List.length c) f).
Proof.
  induction fuel as [| fuel IH]; intros c n f Hfuel; simpl.
  - destruct (Nat.ltb_spec (List.length c) n) as [Hlt | Hge]; [lia |].
    replace (n - List.length c)%nat with O by lia. simpl.
    now rewrite app_nil_r.
  - destruct (Nat.ltb_spec (List.length c) n) as [Hlt | Hge].
    + destruct (frand f) as [v f'] eqn:Hf.
      rewrite IH by (rewrite length_app; simpl; lia).
      rewrite length_app. simpl.
      replace (n - List.length c)%nat with (S (n - (List.length c + 1))) by lia.
      unfold outputs. simpl. rewrite Hf. rewrite <- app_assoc. reflexivity.
    + replace (n - List.length c)%nat with O by lia. simpl.
      now rewrite app_nil_r.
Qed.

(** On a sequence container [rfill] ends after [n - c.size()] calls of
    [frand]: the old elements stay in place as a prefix, the values
    generated follow in the order of the calls, and the size becomes the
    larger of [n] and the old size; a container that already has [n]
    elements is left as it is. *)
Theorem rfill_sequence (fuel : nat) (c : list T) (n : nat) (f : F) :
  (n - List.length c <= fuel)%nat ->
  exists c',
    rfill fuel c n f = Some c' /\
    c' = c ++ outputs (n - List.length c) f /\
    List.length c' = Nat.max n (List.length c) /\
    ((n <= List.length c)%nat -> c' = c).
Proof.
  intros Hfuel. exists (c ++ outputs (n - List.length c) f).
  split; [now apply rfill_appends |]. split; [reflexivity |].
  assert (Hlen : forall k g, List.length (outputs k g) = k).
  { induction k as [| k IHk]; intros g; [reflexivity |].
    unfold outputs in *. simpl. destruct (frand g). simpl. now rewrite IHk. }
  split.
  - rewrite length_app, Hlen. lia.
  - intros Hge. replace (n - List.length c)%nat with O by lia.
    simpl. apply app_nil_r.
Qed.

Lemma rfill_forward_list_rev (n : nat) :
  forall c f, rfill_forward_list c n f = rev (outputs n f) ++ c.
Proof.
  induction n as [| n IH]; intros c f; [reflexivity |].
  unfold outputs in *. simpl. destruct (frand f) as [v f'].
  rewrite IH. simpl. rewrite <- app_assoc. reflexivity.
Qed.

(** On a [std::forward_list] [rfill] always makes [n] calls, whatever the
    list holds: the values generated are put in front, the last one first,
    and the old elements follow unchanged, so the size grows by [n]. *)
Theorem rfill_forward_list_prepends (c : list T) (n : nat) (f : F) :
  rfill_forward_list c n f = rev (outputs n f) ++ c /\
  List.length (rfill_forward_list c n f) = (n + List.length c)%nat.
Proof.
  rewrite rfill_forward_list_rev. split; [reflexivity |].
  rewrite length_app, length_rev.
  f_equal. clear c. revert f.
  induction n as [| n IH]; intros f; [reflexivity |].
  unfold outputs in *. simpl. destruct (frand f). simpl. now rewrite IH.
Qed.

(** The two overloads agree on an empty container up to the order: the
    forward list ends up as the reverse of what the sequence holds. *)
Theorem rfill_overloads_mirror (n : nat) (f : F) :
  rfill n [] n f = Some (rev (rfill_forward_list [] n f)).
Proof.
  rewrite rfill_appends by (simpl; lia).
  rewrite rfill_forward_list_rev, app_nil_r, rev_involutive.
  simpl. now rewrite Nat.sub_0_r.
Qed.

End WithElements.

Section OnSets.

(** The generic overload on a [std::set], where the hinted
    [c.insert(c.end(), x)] is the set's insertion. *)
Variable T : Type.
Variable ltb : T -> T -> bool.
Variable F : Type.
Variable frand : F -> T * F.

Fixpoint rfill_set (fuel : nat) (s : list T) (n : nat) (f : F) : option (list T) :=
  if Nat.ltb (List.length s) n then
    match fuel with
    | O => None
    | S fuel' =>
        let (v, f') := frand f in rfill_set fuel' (Fcs.set_insert T ltb v s) n f'
    end
  else Some s.

Lemma rfill_set_fcs_loop (fuel : nat) :
  forall s n f,
    (List.length s <= n)%nat ->
    Fcs.fcs_loop T ltb F frand fuel n s f = rfill_set fuel s n f.
Proof.
  induction fuel as [| fuel IH]; intros s n f Hlen; simpl.
  - destruct (Nat.eqb_spec (List.length s) n) as [Heq | Hne];
      destruct (Nat.ltb_spec (List.length s) n); try lia; reflexivity.
  - destruct (Nat.eqb_spec (List.length s) n) as [Heq | Hne];
      destruct (Nat.ltb_spec (List.length s) n); try lia; try reflexivity.
    destruct (frand f) as [v f']. apply IH.
    pose proof (Fcs.set_insert_length_le T ltb v s). lia.
Qed.

(** [fcs] is [rfill] on an empty [std::set] followed by the assignment:
    both loops make the same calls and build the same set. *)
Theorem fcs_is_rfill_on_empty_set (fuel : nat) (c : list T) (n : nat) (f : F) :
  Fcs.fcs T ltb F frand fuel c n f = rfill_set fuel [] n f.
Proof.
  unfold Fcs.fcs. rewrite rfill_set_fcs_loop by (simpl; lia).
  destruct (rfill_set fuel [] n f); reflexivity.
Qed.

Hypothesis ltb_trans :
  forall x y z, ltb x y = true -> ltb y z = true -> ltb x z = true.
Hypothesis ltb_total :
  forall x y, ltb x y = false -> ltb y x = false -> x = y.

(** On a [std::set] [rfill], when it returns, has kept every element the
    set had, left the set in increasing order, and brought its size to the
    larger of [n] and the old size; duplicates that [frand] produced were
    dropped and did not count. *)
Theorem rfill_set_grows (fuel : nat) :
  forall (s r : list T) (n : nat) (f : F),
    StronglySorted (Fcs.lt T ltb) s ->
    rfill_set fuel s n f = Some r ->
    StronglySorted (Fcs.lt T ltb) r /\
    incl s r /\
    List.length r = Nat.max n (List.length s) /\
    ((n <= List.length s)%nat -> r = s).
Proof.
  induction fuel as [| fuel IH]; intros s r n f Hs; simpl.
  - destruct (Nat.ltb_spec (List.length s) n) as [Hlt | Hge]; [discriminate |].
    intros [= <-]. repeat split; auto; [apply incl_refl | lia].
  - destruct (Nat.ltb_spec (List.length s) n) as [Hlt | Hge].
    + destruct (frand f) as [v f']. intros Hrun.
      pose proof (Fcs.set_insert_length_le T ltb v s) as Hlen.
      destruct (IH _ _ _ _ (Fcs.set_insert_sorted T ltb ltb_trans ltb_total v s Hs) Hrun)
        as (Hsorted & Hincl & Hsize & _).
      repeat split; auto; try lia.
      intros x Hx. apply Hincl.
      apply (Fcs.set_insert_In T ltb ltb_total). now right.
    + intros [= <-]. repeat split; auto; [apply incl_refl | lia].
Qed.

End OnSets.

Lemma rfill_sequence_witness :
  exists c',
    rfill Z Z Fcs.cycle3 4 [9; 9] 5 0 = Some c' /\
    c' = [9; 9] ++ outputs Z Z Fcs.cycle3 (5 - List.length [9; 9]) 0 /\
    List.length c' = Nat.max 5 (List.length [9; 9]) /\
    ((5 <= List.length [9; 9])%nat -> c' = [9; 9]).
Proof.
  apply (rfill_sequence Z Z Fcs.cycle3 4 [9; 9] 5 0).
  simpl. lia.
Defined.

Example rfill_set_skips_duplicates :
  rfill_set Z Z.ltb Z Fcs.cycle3 5 [1; 7] 4 0 = Some [0; 1; 2; 7].
Proof. reflexivity. Qed.

Lemma rfill_set_grows_witness :
  StronglySorted (Fcs.lt Z Z.ltb) [0; 1; 2; 7] /\
  incl [1; 7] [0; 1; 2; 7] /\
  List.length [0; 1; 2; 7] = Nat.max 4 (List.length [1; 7]) /\
  ((4 <= List.length [1; 7])%nat -> [0; 1; 2; 7] = [1; 7]).
Proof.
  apply (rfill_set_grows Z Z.ltb Z Fcs.cycle3 Fcs.Zltb_trans Fcs.Zltb_total
           5 [1; 7] [0; 1; 2; 7] 4 0).
  - repeat constructor.
  - reflexivity.
Defined.

End Rfill.

(** ** Printing helpers *)

Module Print.

Local Open Scope string_scope.

(** An output stream is the text written to it so far. *)
Definition ostream : Type := string.

Definition dashes : string :=
  "-----------------------------------------------------------------------------".

Definition newline : string := String (ascii_of_nat 10) EmptyString.

(** [return os << "\n-----...-----\n";] *)
Definition dash_line (os : ostream) : ostream :=
  os ++ newline ++ dashes ++ newline.

Lemma append_nil_r (a : string) : a ++ "" = a.
Proof. induction a as [| ch a IH]; simpl; [reflexivity | now rewrite IH]. Qed.

Lemma append_assoc (a b c : string) : (a ++ b) ++ c = a ++ (b ++ c).
Proof. induction a as [| ch a IH]; simpl; [reflexivity | now rewrite IH]. Qed.

Section WithElements.

(** The element type and the text its [operator<<] writes. *)
Variable T : Type.
Variable show : T -> string.

(** [return os << "[" << p.first << ", " << p.second << "]";] *)
Definition show_pair (U : Type) (show_second : U -> string) (os : ostream)
  (p : T * U) : ostream :=
  os ++ "[" ++ show (fst p) ++ ", " ++ show_second (snd p) ++ "]".

(** [for (const auto& elem : c) os << elem << psep; os << dash_line;] *)
Definition print (c : list T) (psep : string) (os : ostream) : ostream :=
  dash_line (fold_left (fun os elem => os ++ show elem ++ psep) c os).

(** The iterator overload, with the two iterators as positions in the
    sequence [l] they point into:
    [while (beg != end) { os << *beg++ << psep; } os << dash_line;]
    Reading through an iterator that has left the sequence is undefined. *)
Fixpoint print_range (fuel : nat) (l : list T) (beg end_ : nat)
  (psep : string) (os : ostream) : run ostream :=
  if Nat.eqb beg end_ then Returns (dash_line os)
  else match nth_error l beg with
       | None => Undefined
       | Some elem =>
           match fuel with
           | O => OutOfFuel
           | S fuel' =>
               print_range fuel' l (S beg) end_ psep (os ++ show elem ++ psep)
           end
       end.

(** The text of the elements, each followed by the separator. *)
Fixpoint items (c : list T) (psep : string) : string :=
  match c with
  | [] => ""
  | elem :: rest => show elem ++ psep ++ items rest psep
  end.

Lemma fold_items (c : list T) (psep : string) :
  forall os,
    fold_left (fun os elem => os ++ show elem ++ psep) c os = os ++ items c psep.
Proof.
  induction c as [| elem rest IH]; intros os; simpl.
  - now rewrite append_nil_r.
  - rewrite IH. now rewrite !append_assoc.
Qed.

Lemma print_text (c : list T) (psep : string) (os : ostream) :
  print c psep os = os ++ items c psep ++ newline ++ dashes ++ newline.
Proof.
  unfold print, dash_line. rewrite fold_items. now rewrite append_assoc.
Qed.

Lemma print_frame (c : list T) (psep : string) (os : ostream) :
  print c psep os = os ++ print c psep "".
Proof. now rewrite (print_text c psep os), (print_text c psep ""). Qed.

(** [print] leaves what the stream already holds untouched and adds a
    text that does not depend on it: every element followed by the
    separator, the last one too, and then the dash line. *)
Theorem print_appends (c : list T) (psep : string) (os : ostream) :
  print c psep os = os ++ items c psep ++ newline ++ dashes ++ newline /\
  print c psep os = os ++ print c psep "".
Proof.
  split; [apply print_text | apply print_frame].
Qed.

(** Printing two containers one after the other on the same stream gives
    the text of the first call followed by the text of the second. *)
Theorem print_twice (c1 c2 : list T) (psep1 psep2 : string) (os : ostream) :
  print c2 psep2 (print c1 psep1 os)
  = os ++ print c1 psep1 "" ++ print c2 psep2 "".
Proof.
  rewrite (print_frame c2 psep2 (print c1 psep1 os)).
  rewrite (print_frame c1 psep1 os).
  now rewrite append_assoc.
Qed.

Lemma print_range_from (fuel : nat) (l : list T) (psep : string) :
  forall beg end_ os,
    (beg <= end_ <= List.length l)%nat ->
    (end_ - beg <= fuel)%nat ->
    print_range fuel l beg end_ psep os
    = Returns (print (firstn (end_ - beg) (skipn beg l)) psep os).
Proof.
  induction fuel as [| fuel IH]; intros beg end_ os Hrange Hfuel; simpl.
  - destruct (Nat.eqb_spec beg end_) as [-> | Hne]; [| lia].
    now rewrite Nat.sub_diag.
  - destruct (Nat.eqb_spec beg end_) as [-> | Hne].
    + now rewrite Nat.sub_diag.
    + destruct (nth_error l beg) as [elem |] eqn:Hnth.
      * rewrite IH by lia.
        replace (end_ - beg)%nat with (S (end_ - S beg)) by lia.
        assert (Hskip : skipn beg l = elem :: skipn (S beg) l).
        { clear - Hnth. revert l Hnth.
          induction beg as [| beg IHb]; intros [| a l] Hnth;
            simpl in *; try discriminate.
          - now injection Hnth as ->.
          - now apply IHb. }
        rewrite Hskip. reflexivity.
      * apply nth_error_None in Hnth. lia.
Qed.

(** The iterator overload on positions [beg <= end] inside a sequence
    prints what [print] prints for the elements between the two positions;
    on [begin(), end()] the two overloads write the same text. *)
Theorem print_range_is_print_of_slice
  (fuel : nat) (l : list T) (beg end_ : nat) (psep : string) (os : ostream) :
  (beg <= end_ <= List.length l)%nat ->
  (end_ - beg <= fuel)%nat ->
  print_range fuel l beg end_ psep os
  = Returns (print (firstn (end_ - beg) (skipn beg l)) psep os) /\
  (beg = 0%nat -> end_ = List.length l ->
   print_range fuel l beg end_ psep os = Returns (print l psep os)).
Proof.
  intros Hrange Hfuel. rewrite print_range_from by assumption.
  split; [reflexivity |]. intros -> ->.
  simpl. rewrite Nat.sub_0_r, firstn_all. reflexivity.
Qed.

(** With the two iterators of a sequence in the wrong order, [end] before
    [beg], the loop test [beg != end] cannot fail before [beg] arrives at
    the past-the-end position, and the next [*beg++] reads through it: the
    call is undefined. *)
Theorem print_range_reversed_is_undefined
  (fuel : nat) (l : list T) (beg end_ : nat) (psep : string) (os : ostream) :
  (end_ < beg <= List.length l)%nat ->
  (List.length l - beg <= fuel)%nat ->
  print_range fuel l beg end_ psep os = Undefined.
Proof.
  revert beg os. induction fuel as [| fuel IH]; intros beg os Hrange Hfuel; simpl.
  - destruct (Nat.eqb_spec beg end_); [lia |].
    destruct (nth_error l beg) eqn:Hnth; [| reflexivity].
    assert (Hsome : nth_error l beg <> None) by congruence.
    apply nth_error_Some in Hsome. lia.
  - destruct (Nat.eqb_spec beg end_); [lia |].
    destruct (nth_error l beg) eqn:Hnth; [| reflexivity].
    assert (Hsome : nth_error l beg <> None) by congruence.
    apply nth_error_Some in Hsome.
    apply IH; lia.
Qed.

End WithElements.

(** Decimal digits of a small number, enough to run the examples. *)
Definition show_digit (n : nat) : string :=
  String (ascii_of_nat (48 + n)) EmptyString.

Example print_five :
  print nat show_digit [1; 2; 3; 4; 5]%nat ", " ""
  = "1, 2, 3, 4, 5, " ++ newline ++ dashes ++ newline.
Proof. reflexivity. Qed.

Example print_pair :
  show_pair nat show_digit nat show_digit "" (1, 2)%nat = "[1, 2]".
Proof. reflexivity. Qed.

Example print_middle :
  print_range nat show_digit 2 [1; 2; 3; 4; 5]%nat 1 3 " " "x"
  = Returns ("x2 3 " ++ newline ++ dashes ++ newline).
Proof. reflexivity. Qed.

Lemma print_range_is_print_of_slice_witness :
  print_range nat show_digit 5 [1; 2; 3; 4; 5]%nat 0 5 " " "x"
  = Returns (print nat show_digit
               (firstn (5 - 0) (skipn 0 [1; 2; 3; 4; 5]%nat)) " " "x") /\
  (0%nat = 0%nat -> 5%nat = List.length [1; 2; 3; 4; 5]%nat ->
   print_range nat show_digit 5 [1; 2; 3; 4; 5]%nat 0 5 " " "x"
   = Returns (print nat show_digit [1; 2; 3; 4; 5]%nat " " "x")).
Proof.
  apply (print_range_is_print_of_slice nat show_digit 5 [1; 2; 3; 4; 5]%nat
           0 5 " " "x").
  - simpl. lia.
  - simpl. lia.
Defined.

Example print_reversed :
  print_range nat show_digit 1 [1; 2; 3]%nat 2 1 " " "" = Undefined.
Proof. reflexivity. Qed.

Lemma print_range_reversed_is_undefined_witness :
  print_range nat show_digit 9 [1; 2; 3]%nat 2 1 " " "" = Undefined.
Proof.
  apply (print_range_reversed_is_undefined nat show_digit 9 [1; 2; 3]%nat
           2 1 " " "").
  - simpl. lia.
  - simpl. lia.
Defined.

End Print.

(** ** File operations *)

Module Files.

Local Open Scope string_scope.

(** How a call ends: it returns, it throws [std::runtime_error] with a
    message, or it ends the process with [std::exit] after writing to
    [std::cerr]. *)
Inductive outcome (A : Type) : Type :=
| Returned (a : A)
| Thrown (what : string)
| Exited (status : Z) (cerr : string).

Arguments Returned {A} a.
Arguments Thrown {A} what.
Arguments Exited {A} status cerr.

Definition EXIT_FAILURE : Z := 1.

Definition newline : string := String (ascii_of_nat 10) EmptyString.

(** What the file system answers to an open: the contents of a file that
    can be opened for reading, and whether a file can be opened for
    writing. *)
Record filesystem : Type := {
  fs_read : string -> option string;
  fs_create : string -> bool
}.

Inductive openmode : Type := text | binary.

(** An open stream. A failed stream tests false ([!ifs]) and is never
    handed out by the wrappers, so only open ones are represented. *)
Record ifstream : Type := {
  in_name : string;
  in_mode : openmode;
  in_rdbuf : string
}.

Record ofstream : Type := {
  out_name : string;
  out_mode : openmode
}.

Definition open_text_file (fs : filesystem) (filename : string)
  : outcome ifstream :=
  match fs_read fs filename with
  | Some data => Returned {| in_name := filename; in_mode := text; in_rdbuf := data |}
  | None => Thrown (filename ++ " : cannot be opened!" ++ newline)
  end.

Definition create_text_file (fs : filesystem) (filename : string)
  : outcome ofstream :=
  if fs_create fs filename
  then Returned {| out_name := filename; out_mode := text |}
  else Thrown (filename ++ ": cannot be created!" ++ newline).

Definition open_binary_file (fs : filesystem) (filename : string)
  : outcome ifstream :=
  match fs_read fs filename with
  | Some data => Returned {| in_name := filename; in_mode := binary; in_rdbuf := data |}
  | None => Thrown (filename ++ " : cannot be opened!" ++ newline)
  end.

Definition create_binary_file (fs : filesystem) (filename : string)
  : outcome ofstream :=
  if fs_create fs filename
  then Returned {| out_name := filename; out_mode := binary |}
  else Thrown (filename ++ " : cannot be created!" ++ newline).

(** [get_str_from_file] of nutility.h: it opens through [open_text_file],
    whose exception passes through, and returns [oss.str()]. *)
Definition get_str_from_file (fs : filesystem) (filename : string)
  : outcome string :=
  match open_text_file fs filename with
  | Returned ifs => Returned (in_rdbuf ifs)
  | Thrown what => Thrown what
  | Exited status cerr => Exited status cerr
  end.

(** [get_str_from_file] of the earlier revisions of the header: it opens
    the stream itself and on failure prints and calls [std::exit]. *)
Definition get_str_from_file_exit (fs : filesystem) (filename : string)
  : outcome string :=
  match fs_read fs filename with
  | Some data => Returned data
  | None => Exited EXIT_FAILURE ("cannot open file" ++ newline)
  end.

(** The wrappers under one roof, to state properties of all of them. *)
Inductive wrapper : Type :=
| w_open_text_file
| w_create_text_file
| w_open_binary_file
| w_create_binary_file
| w_get_str_from_file
| w_get_str_from_file_exit.

Inductive value : Type :=
| v_ifstream (s : ifstream)
| v_ofstream (s : ofstream)
| v_string (s : string).

Definition map_outcome {A B : Type} (g : A -> B) (o : outcome A) : outcome B :=
  match o with
  | Returned a => Returned (g a)
  | Thrown what => Thrown what
  | Exited status cerr => Exited status cerr
  end.

Definition call (w : wrapper) (fs : filesystem) (filename : string)
  : outcome value :=
  match w with
  | w_open_text_file => map_outcome v_ifstream (open_text_file fs filename)
  | w_create_text_file => map_outcome v_ofstream (create_text_file fs filename)
  | w_open_binary_file => map_outcome v_ifstream (open_binary_file fs filename)
  | w_create_binary_file => map_outcome v_ofstream (create_binary_file fs filename)
  | w_get_str_from_file => map_outcome v_string (get_str_from_file fs filename)
  | w_get_str_from_file_exit =>
      map_outcome v_string (get_str_from_file_exit fs filename)
  end.

(** Whether the open that the wrapper attempts succeeds. *)
Definition open_succeeds (w : wrapper) (fs : filesystem) (filename : string)
  : bool :=
  match w with
  | w_create_text_file | w_create_binary_file => fs_create fs filename
  | _ => match fs_read fs filename with Some _ => true | None => false end
  end.

Definition is_stream (v : value) : bool :=
  match v with
  | v_string _ => false
  | _ => true
  end.

(** The wrappers whose result is the stream itself. *)
Definition hands_out_stream (w : wrapper) : bool :=
  match w with
  | w_get_str_from_file | w_get_str_from_file_exit => false
  | _ => true
  end.

(** A file system with no file and no writable place. *)
Definition no_files : filesystem :=
  {| fs_read := fun _ => None; fs_create := fun _ => false |}.

(** A file system holding one readable, writable file. *)
Definition one_file (name data : string) : filesystem :=
  {| fs_read := fun n => if String.eqb n name then Some data else None;
     fs_create := fun n => String.eqb n name |}.

Example open_missing :
  open_text_file no_files "a.txt"
  = Thrown ("a.txt : cannot be opened!" ++ newline).
Proof. reflexivity. Qed.

Example read_present :
  get_str_from_file (one_file "a.txt" "hello") "a.txt" = Returned "hello".
Proof. reflexivity. Qed.

(** The claim made of a wrapper: a failed open is turned into a raised
    error, a successful one gives back the opened stream. *)
Definition converts_failure (w : wrapper) : Prop :=
  forall fs filename,
    if open_succeeds w fs filename
    then exists v, call w fs filename = Returned v /\ is_stream v = true
    else exists what, call w fs filename = Thrown what.

(** C7, as the code has it: on a file that cannot be opened
    [get_str_from_file] of the earlier revisions raises nothing; it writes
    to [std::cerr] and ends the process. *)
Lemma get_str_from_file_exit_does_not_throw :
  open_succeeds w_get_str_from_file_exit no_files "a.txt" = false /\
  call w_get_str_from_file_exit no_files "a.txt"
  = Exited EXIT_FAILURE ("cannot open file" ++ newline) /\
  ~ (forall w, converts_failure w).
Proof.
  split; [reflexivity |]. split; [reflexivity |].
  intros H. specialize (H w_get_str_from_file_exit no_files "a.txt").
  simpl in H. destruct H as [what H]. discriminate H.
Qed.

(** C7, as amended. The four open and create wrappers raise
    [std::runtime_error] when the open fails and return the opened stream
    when it succeeds; [get_str_from_file] of nutility.h raises the same
    error as [open_text_file] and on success returns the contents of the
    file, a string and not a stream; [get_str_from_file] of the earlier
    revisions returns the contents too, and on failure ends the process
    with [EXIT_FAILURE] after writing to [std::cerr]. *)
Theorem wrappers_on_open (fs : filesystem) (filename : string) :
  (forall w,
      hands_out_stream w = true ->
      if open_succeeds w fs filename
      then exists v, call w fs filename = Returned v /\ is_stream v = true
      else exists what, call w fs filename = Thrown what) /\
  match fs_read fs filename with
  | Some data =>
      get_str_from_file fs filename = Returned data /\
      get_str_from_file_exit fs filename = Returned data
  | None =>
      get_str_from_file fs filename
      = Thrown (filename ++ " : cannot be opened!" ++ newline) /\
      open_text_file fs filename
      = Thrown (filename ++ " : cannot be opened!" ++ newline) /\
      get_str_from_file_exit fs filename
      = Exited EXIT_FAILURE ("cannot open file" ++ newline)
  end.
Proof.
  split.
  - intros w Hw. destruct w; try discriminate Hw; simpl;
      unfold open_text_file, open_binary_file, create_text_file,
        create_binary_file.
    + destruct (fs_read fs filename); simpl; eauto.
    + destruct (fs_create fs filename); simpl; eauto.
    + destruct (fs_read fs filename); simpl; eauto.
    + destruct (fs_create fs filename); simpl; eauto.
  - unfold get_str_from_file, get_str_from_file_exit, open_text_file.
    destruct (fs_read fs filename); repeat split.
Qed.

End Files.

(** ** The shared engine and the generators *)

Module Random.

(** [std::uniform_int_distribution<int>]: the two bounds it was built
    with. *)
Record uniform_int_distribution : Type := {
  int_a : Z;
  int_b : Z
}.

(** [class Irand]: its only member is [m_dist]. *)
Record Irand : Type := {
  m_dist : uniform_int_distribution
}.

(** What a constructor call yields: the object, or the signal that the
    bounds were refused and no object was made. *)
Inductive construction (A : Type) : Type :=
| constructed (a : A)
| invalid_range.

Arguments constructed {A} a.
Arguments invalid_range {A}.

(** [Irand() = default]: the distribution's own default bounds. *)
Definition Irand_default : Irand :=
  {| m_dist := {| int_a := 0; int_b := INT_MAX |} |}.

(** The function-local static [eng] of [urng()]: absent until the first
    call; [entropy_reads] counts the calls of [std::random_device{}()]. *)
Record process (mt19937 : Type) : Type := {
  eng : option mt19937;
  entropy_reads : nat
}.

Arguments eng {mt19937} p.
Arguments entropy_reads {mt19937} p.

Section Facility.

(** The standard library's parts are parameters: the engine
    [std::mt19937] with its constructor from a seed, the values
    [std::random_device] yields in the order they are read, the type
    [double], and the call operators of the two distributions, which take
    the engine by reference and leave it advanced. *)
Variable mt19937 : Type.
Variable mt19937_seed : Z -> mt19937.
Variable random_device : nat -> Z.
Variable sample_int : uniform_int_distribution -> mt19937 -> Z * mt19937.

Variable double : Type.

(** [std::uniform_real_distribution<double>] *)
Record uniform_real_distribution : Type := {
  real_a : double;
  real_b : double
}.

Variable sample_real : uniform_real_distribution -> mt19937 -> double * mt19937.

(** The name tables of [random_name] and [random_surname]. *)
Variable pnames : list string.
Variable pfnames : list string.

(** The guarantee of [std::uniform_int_distribution]: with [a <= b] the
    value drawn lies in the closed interval. *)
Hypothesis sample_int_range :
  forall d e, int_a d <= int_b d ->
              int_a d <= fst (sample_int d e) <= int_b d.

(** The constructor of [std::uniform_int_distribution] requires its
    bounds in order, [a <= b]; with the requirement met it stores them.
    What it does otherwise the C++ standard leaves undefined, and it is
    left to the library here: a build of the library with assertions stops
    at the constructor, a build without stores the bounds as they come. *)
Variable int_violation : Z -> Z -> construction uniform_int_distribution.

Definition uniform_int_distribution_new (a b : Z)
  : construction uniform_int_distribution :=
  if a <=? b then constructed {| int_a := a; int_b := b |}
  else int_violation a b.

(** [Irand(int min, int max) : m_dist{ min, max } {}]: the member
    initialiser is all that runs; the constructor has no test of its own. *)
Definition Irand_new (min max : Z) : construction Irand :=
  match uniform_int_distribution_new min max with
  | constructed d => constructed {| m_dist := d |}
  | invalid_range => invalid_range
  end.

(** The order [<=] of [double], and the second requirement of
    [std::uniform_real_distribution]: the width [b - a] does not exceed the
    largest finite [double]. *)
Variable dle : double -> double -> bool.
Variable width_ok : double -> double -> bool.

(** The constructor of [std::uniform_real_distribution], with its
    behaviour outside the two requirements left to the library as above. *)
Variable real_violation :
  double -> double -> construction uniform_real_distribution.

Definition uniform_real_distribution_new (a b : double)
  : construction uniform_real_distribution :=
  if dle a b && width_ok a b
  then constructed {| real_a := a; real_b := b |}
  else real_violation a b.

(** The guarantee of [std::uniform_real_distribution]: with both
    requirements met the value drawn lies between the bounds. *)
Hypothesis sample_real_range :
  forall d e,
    dle (real_a d) (real_b d) = true ->
    width_ok (real_a d) (real_b d) = true ->
    dle (real_a d) (fst (sample_real d e)) = true /\
    dle (fst (sample_real d e)) (real_b d) = true.

(** [class Drand]: its only member, [m_dist] in the source, is named
    [d_dist] here to keep it apart from the member of [Irand]. *)
Record Drand : Type := {
  d_dist : uniform_real_distribution
}.

(** [Drand(double dmin, double dmax) : m_dist{ dmin, dmax } {}] *)
Definition Drand_new (dmin dmax : double) : construction Drand :=
  match uniform_real_distribution_new dmin dmax with
  | constructed d => constructed {| d_dist := d |}
  | invalid_range => invalid_range
  end.

(** The process at its start: no engine yet. *)
Definition start : process mt19937 := {| eng := None; entropy_reads := 0 |}.

(** [static std::mt19937 eng{ std::random_device{}() }; return eng;]
    The reference returned designates the field [eng]; the call yields the
    engine found there, after building it when the field is still empty. *)
Definition urng (p : process mt19937) : mt19937 * process mt19937 :=
  match eng p with
  | Some e => (e, p)
  | None =>
      let e := mt19937_seed (random_device (entropy_reads p)) in
      (e, {| eng := Some e; entropy_reads := S (entropy_reads p) |})
  end.

(** Writing through the reference that [urng] returned. *)
Definition set_eng (e : mt19937) (p : process mt19937) : process mt19937 :=
  {| eng := Some e; entropy_reads := entropy_reads p |}.

(** [int Irand::operator()() { return m_dist(urng()); }] *)
Definition Irand_call (g : Irand) (p : process mt19937) : Z * process mt19937 :=
  let (e, p1) := urng p in
  let (v, e') := sample_int (m_dist g) e in
  (v, set_eng e' p1).

(** [double Drand::operator()() { return m_dist(urng()); }] *)
Definition Drand_call (g : Drand) (p : process mt19937)
  : double * process mt19937 :=
  let (e, p1) := urng p in
  let (v, e') := sample_real (d_dist g) e in
  (v, set_eng e' p1).

(** [return pnames[Irand(0, (int)(std::size(pnames)) - 1)()];]
    [None] stands for a read outside the table. *)
Definition pick (table : list string) (p : process mt19937)
  : option string * process mt19937 :=
  let g := {| m_dist := {| int_a := 0; int_b := Z.of_nat (List.length table) - 1 |} |} in
  let (i, p') := Irand_call g p in
  (if i <? 0 then None else nth_error table (Z.to_nat i), p').

Definition random_name : process mt19937 -> option string * process mt19937 :=
  pick pnames.

Definition random_surname : process mt19937 -> option string * process mt19937 :=
  pick pfnames.

(** The operations of the facility that a program can interleave. *)
Inductive op : Type :=
| call_urng
| draw_int (g : Irand)
| draw_real (g : Drand)
| call_random_name
| call_random_surname.

Inductive output : Type :=
| out_none
| out_int (v : Z)
| out_real (v : double)
| out_name (s : option string).

Definition step (o : op) (p : process mt19937) : output * process mt19937 :=
  match o with
  | call_urng => (out_none, snd (urng p))
  | draw_int g => let (v, p') := Irand_call g p in (out_int v, p')
  | draw_real g => let (v, p') := Drand_call g p in (out_real v, p')
  | call_random_name => let (s, p') := random_name p in (out_name s, p')
  | call_random_surname => let (s, p') := random_surname p in (out_name s, p')
  end.

Fixpoint run_ops (ops : list op) (p : process mt19937)
  : list output * process mt19937 :=
  match ops with
  | [] => ([], p)
  | o :: rest =>
      let (out, p') := step o p in
      let (outs, p'') := run_ops rest p' in
      (out :: outs, p'')
  end.

(** What one operation does to an engine it is handed, leaving aside where
    the engine lives. *)
Definition advance1 (o : op) (e : mt19937) : mt19937 :=
  match o with
  | call_urng => e
  | draw_int g => snd (sample_int (m_dist g) e)
  | draw_real g => snd (sample_real (d_dist g) e)
  | call_random_name =>
      snd (sample_int {| int_a := 0; int_b := Z.of_nat (List.length pnames) - 1 |} e)
  | call_random_surname =>
      snd (sample_int {| int_a := 0; int_b := Z.of_nat (List.length pfnames) - 1 |} e)
  end.

Definition advance (ops : list op) (e : mt19937) : mt19937 :=
  fold_left (fun e o => advance1 o e) ops e.

(** A generator of either kind, and the value a draw gives. *)
Inductive generator : Type :=
| gen_int (g : Irand)
| gen_real (g : Drand).

Inductive drawn : Type :=
| drawn_int (v : Z)
| drawn_real (v : double).

(** A draw through the generator's call operator. *)
Definition draw (g : generator) (p : process mt19937) : drawn * process mt19937 :=
  match g with
  | gen_int g => let (v, p') := Irand_call g p in (drawn_int v, p')
  | gen_real g => let (v, p') := Drand_call g p in (drawn_real v, p')
  end.

Fixpoint draws (gs : list generator) (p : process mt19937)
  : list drawn * process mt19937 :=
  match gs with
  | [] => ([], p)
  | g :: rest =>
      let (v, p') := draw g p in
      let (vs, p'') := draws rest p' in
      (v :: vs, p'')
  end.

(** The reading of the specification: one engine, whose successive states
    form a single stream; the k-th draw maps the k-th state through the
    distribution of the generator that draws. *)
Definition distribution (g : generator) (e : mt19937) : drawn * mt19937 :=
  match g with
  | gen_int g => let (v, e') := sample_int (m_dist g) e in (drawn_int v, e')
  | gen_real g => let (v, e') := sample_real (d_dist g) e in (drawn_real v, e')
  end.

Fixpoint stream_map (gs : list generator) (e : mt19937) : list drawn * mt19937 :=
  match gs with
  | [] => ([], e)
  | g :: rest =>
      let (v, e') := distribution g e in
      let (vs, e'') := stream_map rest e' in
      (v :: vs, e'')
  end.

(** *** The engine is built once and only ever advanced *)

Lemma urng_eng (p : process mt19937) : eng (snd (urng p)) = Some (fst (urng p)).
Proof.
  unfold urng. destruct (eng p) eqn:He; simpl; [exact He | reflexivity].
Qed.

Lemma urng_seeded (p : process mt19937) (e : mt19937) :
  eng p = Some e -> urng p = (e, p).
Proof. intros He. unfold urng. rewrite He. reflexivity. Qed.

Lemma urng_again (p : process mt19937) : urng (snd (urng p)) = urng p.
Proof.
  rewrite (urng_seeded (snd (urng p)) (fst (urng p)) (urng_eng p)).
  destruct (urng p); reflexivity.
Qed.

Lemma urng_reads (p : process mt19937) :
  entropy_reads (snd (urng p))
  = match eng p with
    | Some _ => entropy_reads p
    | None => S (entropy_reads p)
    end.
Proof. unfold urng. destruct (eng p); reflexivity. Qed.

Lemma Irand_call_eq (g : Irand) (p : process mt19937) :
  Irand_call g p
  = (fst (sample_int (m_dist g) (fst (urng p))),
     set_eng (snd (sample_int (m_dist g) (fst (urng p)))) (snd (urng p))).
Proof.
  unfold Irand_call. destruct (urng p) as [e p1]. simpl.
  destruct (sample_int (m_dist g) e); reflexivity.
Qed.

Lemma Drand_call_eq (g : Drand) (p : process mt19937) :
  Drand_call g p
  = (fst (sample_real (d_dist g) (fst (urng p))),
     set_eng (snd (sample_real (d_dist g) (fst (urng p)))) (snd (urng p))).
Proof.
  unfold Drand_call. destruct (urng p) as [e p1]. simpl.
  destruct (sample_real (d_dist g) e); reflexivity.
Qed.

Lemma pick_state (table : list string) (p : process mt19937) :
  snd (pick table p)
  = set_eng
      (snd (sample_int {| int_a := 0; int_b := Z.of_nat (List.length table) - 1 |}
              (fst (urng p))))
      (snd (urng p)).
Proof. unfold pick. rewrite Irand_call_eq. reflexivity. Qed.

(** Every operation leaves the engine of [urng] advanced by its own
    sampler and reads no entropy beyond what [urng] itself read. *)
Lemma step_state (o : op) (p : process mt19937) :
  snd (step o p) = set_eng (advance1 o (fst (urng p))) (snd (urng p)).
Proof.
  destruct o; simpl.
  - unfold set_eng. rewrite <- urng_eng. destruct (snd (urng p)); reflexivity.
  - rewrite Irand_call_eq. reflexivity.
  - rewrite Drand_call_eq. reflexivity.
  - unfold random_name. rewrite <- pick_state. destruct (pick pnames p); reflexivity.
  - unfold random_surname. rewrite <- pick_state. destruct (pick pfnames p); reflexivity.
Qed.

Lemma run_ops_cons (o : op) (rest : list op) (p : process mt19937) :
  snd (run_ops (o :: rest) p) = snd (run_ops rest (snd (step o p))).
Proof.
  simpl. destruct (step o p) as [out p']. simpl.
  destruct (run_ops rest p'); reflexivity.
Qed.

Lemma run_ops_state (ops : list op) :
  forall p, ops <> [] ->
            snd (run_ops ops p)
            = set_eng (advance ops (fst (urng p))) (snd (urng p)).
Proof.
  induction ops as [| o rest IH]; intros p Hne; [congruence |].
  rewrite run_ops_cons, step_state.
  destruct rest as [| o' rest']; [reflexivity |].
  rewrite IH by discriminate.
  rewrite (urng_seeded _ (advance1 o (fst (urng p)))) by reflexivity.
  reflexivity.
Qed.

(** *** Values drawn *)

Lemma Irand_call_range (g : Irand) (p : process mt19937) :
  int_a (m_dist g) <= int_b (m_dist g) ->
  int_a (m_dist g) <= fst (Irand_call g p) <= int_b (m_dist g).
Proof.
  intros Hab. rewrite Irand_call_eq. simpl. now apply sample_int_range.
Qed.

(** With a table that is not empty the index drawn is inside it. *)
Lemma pick_inside (table : list string) (p : process mt19937) :
  table <> [] -> exists name, fst (pick table p) = Some name.
Proof.
  intros Hne. unfold pick.
  set (g := {| m_dist := {| int_a := 0; int_b := Z.of_nat (List.length table) - 1 |} |}).
  assert (Hlen : (0 < List.length table)%nat) by (destruct table; [congruence | simpl; lia]).
  pose proof (Irand_call_range g p) as Hr. simpl in Hr.
  destruct (Irand_call g p) as [i p']. simpl in *.
  destruct (Z.ltb_spec i 0) as [Hneg | Hpos]; [lia |].
  destruct (nth_error table (Z.to_nat i)) as [name |] eqn:Hnth; [now exists name |].
  apply nth_error_None in Hnth. lia.
Qed.

(** *** Interleaved draws and the single engine stream *)

Lemma set_eng_twice (e1 e2 : mt19937) (p : process mt19937) :
  set_eng e2 (set_eng e1 p) = set_eng e2 p.
Proof. reflexivity. Qed.

Lemma draw_eq (g : generator) (p : process mt19937) :
  draw g p
  = (fst (distribution g (fst (urng p))),
     set_eng (snd (distribution g (fst (urng p)))) (snd (urng p))).
Proof.
  destruct g as [g | g]; simpl.
  - rewrite Irand_call_eq. destruct (sample_int (m_dist g) (fst (urng p))); reflexivity.
  - rewrite Drand_call_eq. destruct (sample_real (d_dist g) (fst (urng p))); reflexivity.
Qed.

Lemma draws_stream (gs : list generator) :
  forall p,
    fst (draws gs p) = fst (stream_map gs (fst (urng p))) /\
    (gs <> [] ->
     snd (draws gs p)
     = set_eng (snd (stream_map gs (fst (urng p)))) (snd (urng p))).
Proof.
  induction gs as [| g rest IH]; intros p; [split; [reflexivity | congruence] |].
  simpl. rewrite draw_eq.
  destruct (distribution g (fst (urng p))) as [v e'] eqn:Hd. simpl.
  specialize (IH (set_eng e' (snd (urng p)))).
  rewrite (urng_seeded (set_eng e' (snd (urng p))) e') in IH by reflexivity.
  simpl in IH. destruct IH as [Hvals Hstate].
  destruct rest as [| g' rest'].
  - simpl. split; [reflexivity | reflexivity].
  - specialize (Hstate ltac:(discriminate)).
    destruct (draws (g' :: rest') (set_eng e' (snd (urng p)))) as [vs p''].
    destruct (stream_map (g' :: rest') e') as [ws e'']. simpl in *.
    split; [now rewrite Hvals | intros _]. rewrite Hstate. reflexivity.
Qed.

(** C1. A draw from [Irand(min, max)] with [min <= max] lies in
    [[min, max]], whatever operations of the facility ran before it and
    from whatever state of the process they started. *)
Theorem Irand_draw_in_range
  (min max : Z) (g : Irand) (before : list op) (p : process mt19937) :
  min <= max ->
  Irand_new min max = constructed g ->
  min <= fst (Irand_call g (snd (run_ops before p))) <= max.
Proof.
  intros Hle Hnew.
  unfold Irand_new, uniform_int_distribution_new in Hnew.
  rewrite (proj2 (Z.leb_le min max) Hle) in Hnew. injection Hnew as <-.
  apply (Irand_call_range {| m_dist := {| int_a := min; int_b := max |} |}).
  exact Hle.
Qed.

(** C2, as amended. Neither constructor has a check of its own: each
    runs the constructor of its distribution member on the bounds as they
    come. With the bounds in order (and, for [Drand], a width within the
    range of [double]) the generator is made and holds the two bounds. With
    the bounds out of order the requirement of the library's constructor is
    broken: the construction signals the invalid range exactly when the
    library's constructor does, and otherwise yields the generator around
    whatever distribution the library made. *)
Theorem constructors_defer_to_library (min max : Z) (dmin dmax : double) :
  (min <= max ->
   Irand_new min max
   = constructed {| m_dist := {| int_a := min; int_b := max |} |}) /\
  (max < min ->
   (Irand_new min max = invalid_range <-> int_violation min max = invalid_range) /\
   (forall d, int_violation min max = constructed d ->
              Irand_new min max = constructed {| m_dist := d |})) /\
  (dle dmin dmax = true -> width_ok dmin dmax = true ->
   Drand_new dmin dmax
   = constructed {| d_dist := {| real_a := dmin; real_b := dmax |} |}) /\
  (dle dmin dmax = false ->
   (Drand_new dmin dmax = invalid_range
    <-> real_violation dmin dmax = invalid_range) /\
   (forall d, real_violation dmin dmax = constructed d ->
              Drand_new dmin dmax = constructed {| d_dist := d |})).
Proof.
  unfold Irand_new, uniform_int_distribution_new,
    Drand_new, uniform_real_distribution_new.
  split; [| split; [| split]].
  - intros Hle. now rewrite (proj2 (Z.leb_le min max) Hle).
  - intros Hgt. destruct (Z.leb_spec min max) as [Hle | _]; [lia |].
    split; [split |].
    + destruct (int_violation min max); [discriminate | reflexivity].
    + intros ->. reflexivity.
    + intros d ->. reflexivity.
  - intros -> ->. reflexivity.
  - intros ->. simpl. split; [split |].
    + destruct (real_violation dmin dmax); [discriminate | reflexivity].
    + intros ->. reflexivity.
    + intros d ->. reflexivity.
Qed.

(** C3. Draws of two generators, interleaved in any order, give the
    values obtained by threading one engine through the draws, each draw
    mapping the engine state it finds through the distribution of the
    generator that draws; the engine left in the process is the end of that
    one stream, and no draw reads entropy once the engine exists. *)
Theorem interleaved_draws_share_stream
  (g1 g2 : generator) (schedule : list bool) (p : process mt19937) :
  let gs := map (fun first : bool => if first then g1 else g2) schedule in
  fst (draws gs p) = fst (stream_map gs (fst (urng p))) /\
  (schedule <> [] ->
   eng (snd (draws gs p)) = Some (snd (stream_map gs (fst (urng p)))) /\
   entropy_reads (snd (draws gs p)) = entropy_reads (snd (urng p))) /\
  (forall e, eng p = Some e ->
             fst (draws gs p) = fst (stream_map gs e) /\
             entropy_reads (snd (draws gs p)) = entropy_reads p).
Proof.
  intros gs. destruct (draws_stream gs p) as [Hvals Hstate].
  split; [exact Hvals |]. split.
  - intros Hne. rewrite Hstate; [split; reflexivity |].
    subst gs. destruct schedule; [congruence | discriminate].
  - intros e He. rewrite Hvals, (urng_seeded p e He). split; [reflexivity |].
    destruct gs as [| g rest] eqn:Hgs; [reflexivity |].
    rewrite Hstate by discriminate. simpl.
    rewrite (urng_seeded p e He). reflexivity.
Qed.

(** C4. [urng] called again hands out the engine it handed out before,
    in the state it was left in. The engine does not exist before the
    first operation that needs it; from then on exactly one value has been
    read from the entropy source, and the engine is the one seeded with
    that value, advanced by the samplers of the operations run so far and
    by nothing else. *)
Theorem urng_engine_built_once (ops : list op) :
  let p := snd (run_ops ops start) in
  urng (snd (urng p)) = urng p /\
  eng start = None /\
  (ops = [] -> eng p = None /\ entropy_reads p = 0%nat) /\
  (ops <> [] ->
   eng p = Some (advance ops (mt19937_seed (random_device 0))) /\
   entropy_reads p = 1%nat /\
   urng p = (advance ops (mt19937_seed (random_device 0)), p)).
Proof.
  intros p. split; [apply urng_again |]. split; [reflexivity |]. split.
  - intros ->. split; reflexivity.
  - intros Hne. subst p. rewrite (run_ops_state ops start Hne).
    repeat split.
Qed.

(** C5. Every draw from [Irand(5, 5)] is 5, after any operations of the
    facility and from any state of the process. *)
Theorem Irand_5_5_always_5
  (g : Irand) (before : list op) (p : process mt19937) :
  Irand_new 5 5 = constructed g ->
  fst (Irand_call g (snd (run_ops before p))) = 5.
Proof.
  intros Hnew. unfold Irand_new, uniform_int_distribution_new in Hnew.
  simpl in Hnew. injection Hnew as <-.
  pose proof (Irand_call_range
                {| m_dist := {| int_a := 5; int_b := 5 |} |}
                (snd (run_ops before p))) as Hr.
  simpl in Hr. lia.
Qed.

(** *** Names and whole runs *)

Lemma pick_eq (table : list string) (p : process mt19937) :
  pick table p
  = (let i := fst (Irand_call
                     {| m_dist := {| int_a := 0;
                                     int_b := Z.of_nat (List.length table) - 1 |} |} p) in
     if i <? 0 then None else nth_error table (Z.to_nat i),
     snd (Irand_call
            {| m_dist := {| int_a := 0;
                            int_b := Z.of_nat (List.length table) - 1 |} |} p)).
Proof.
  unfold pick.
  destruct (Irand_call
              {| m_dist := {| int_a := 0;
                              int_b := Z.of_nat (List.length table) - 1 |} |} p).
  reflexivity.
Qed.

Lemma pick_in_table (table : list string) (p : process mt19937) :
  table <> [] ->
  exists name, fst (pick table p) = Some name /\ In name table.
Proof.
  intros Hne. destruct (pick_inside table p Hne) as [name Hname].
  exists name. split; [exact Hname |].
  rewrite pick_eq in Hname. simpl in Hname.
  destruct (_ <? 0); [discriminate |].
  now apply nth_error_In in Hname.
Qed.

(** With tables that are not empty, [random_name] and [random_surname]
    return an entry of their table from every state of the process: the
    index drawn never falls outside the array; and each call uses the
    shared engine exactly as one draw of [Irand(0, size - 1)] does. *)
Theorem random_names_come_from_tables (p : process mt19937) :
  pnames <> [] -> pfnames <> [] ->
  (exists name, fst (random_name p) = Some name /\ In name pnames) /\
  (exists name, fst (random_surname p) = Some name /\ In name pfnames) /\
  snd (random_name p)
  = snd (Irand_call
           {| m_dist := {| int_a := 0;
                           int_b := Z.of_nat (List.length pnames) - 1 |} |} p) /\
  snd (random_surname p)
  = snd (Irand_call
           {| m_dist := {| int_a := 0;
                           int_b := Z.of_nat (List.length pfnames) - 1 |} |} p).
Proof.
  intros Hn Hf. unfold random_name, random_surname.
  split; [now apply pick_in_table |]. split; [now apply pick_in_table |].
  rewrite !pick_eq. split; reflexivity.
Qed.

Lemma Drand_call_range (g : Drand) (p : process mt19937) :
  dle (real_a (d_dist g)) (real_b (d_dist g)) = true ->
  width_ok (real_a (d_dist g)) (real_b (d_dist g)) = true ->
  dle (real_a (d_dist g)) (fst (Drand_call g p)) = true /\
  dle (fst (Drand_call g p)) (real_b (d_dist g)) = true.
Proof.
  intros Hab Hw. rewrite Drand_call_eq. simpl. now apply sample_real_range.
Qed.

(** C6, as amended. A draw from [Drand(dmin, dmax)] with [dmin <= dmax]
    and a width [dmax - dmin] within the range of [double] lies between
    [dmin] and [dmax], both included, whatever operations of the facility
    ran before it and from whatever state of the process they started. *)
Theorem Drand_draw_in_range
  (dmin dmax : double) (g : Drand) (before : list op) (p : process mt19937) :
  dle dmin dmax = true ->
  width_ok dmin dmax = true ->
  Drand_new dmin dmax = constructed g ->
  dle dmin (fst (Drand_call g (snd (run_ops before p)))) = true /\
  dle (fst (Drand_call g (snd (run_ops before p)))) dmax = true.
Proof.
  intros Hle Hw Hnew.
  unfold Drand_new, uniform_real_distribution_new in Hnew.
  rewrite Hle, Hw in Hnew. simpl in Hnew. injection Hnew as <-.
  apply (Drand_call_range
           {| d_dist := {| real_a := dmin; real_b := dmax |} |});
    assumption.
Qed.

(** The claim made of [Drand]: bounds in order are all it takes for every
    draw to lie between them. *)
Definition Drand_in_range_whenever_ordered : Prop :=
  forall dmin dmax g p,
    dle dmin dmax = true ->
    Drand_new dmin dmax = constructed g ->
    dle dmin (fst (Drand_call g p)) = true /\
    dle (fst (Drand_call g p)) dmax = true.

(** An operation whose draw meets the requirements of its distribution:
    bounds in order, for a [Drand] a width in range as well, and for the
    name pickers a table that is not empty. *)
Definition well_posed (o : op) : Prop :=
  match o with
  | call_urng => True
  | draw_int g => int_a (m_dist g) <= int_b (m_dist g)
  | draw_real g =>
      dle (real_a (d_dist g)) (real_b (d_dist g)) = true /\
      width_ok (real_a (d_dist g)) (real_b (d_dist g)) = true
  | call_random_name => pnames <> []
  | call_random_surname => pfnames <> []
  end.

(** What such an operation gives back: nothing for [urng], a value
    between the bounds for a generator, an entry of the table for the two
    name pickers. *)
Definition in_range (o : op) (out : output) : Prop :=
  match o, out with
  | call_urng, out_none => True
  | draw_int g, out_int v => int_a (m_dist g) <= v <= int_b (m_dist g)
  | draw_real g, out_real v =>
      dle (real_a (d_dist g)) v = true /\ dle v (real_b (d_dist g)) = true
  | call_random_name, out_name s => exists name, s = Some name /\ In name pnames
  | call_random_surname, out_name s =>
      exists name, s = Some name /\ In name pfnames
  | _, _ => False
  end.

Lemma step_in_range (o : op) (p : process mt19937) :
  well_posed o -> in_range o (fst (step o p)).
Proof.
  destruct o; simpl.
  - intros _. exact I.
  - intros Hab. pose proof (Irand_call_range g p Hab) as Hr.
    destruct (Irand_call g p). exact Hr.
  - intros [Hab Hw]. pose proof (Drand_call_range g p Hab Hw) as Hr.
    destruct (Drand_call g p). exact Hr.
  - unfold random_name. intros Hne.
    pose proof (pick_in_table pnames p Hne) as Hpick.
    destruct (pick pnames p). simpl in *. exact Hpick.
  - unfold random_surname. intros Hne.
    pose proof (pick_in_table pfnames p Hne) as Hpick.
    destruct (pick pfnames p). simpl in *. exact Hpick.
Qed.

(** In a run of operations each of which meets the requirements of its
    draw, from every state of the process and in every interleaving, each
    integer and each [double] drawn lies between the bounds of the
    generator that drew it, and each name is an entry of its table. *)
Theorem well_posed_runs_stay_in_range (ops : list op) (p : process mt19937) :
  Forall well_posed ops ->
  Forall2 in_range ops (fst (run_ops ops p)).
Proof.
  revert p. induction ops as [| o rest IH]; intros p Hwp; simpl; [constructor |].
  inversion Hwp as [| ? ? Ho Hrest]; subst.
  pose proof (step_in_range o p Ho) as Hstep.
  destruct (step o p) as [out p']. simpl in Hstep.
  specialize (IH p' Hrest). destruct (run_ops rest p') as [outs p''].
  simpl in *. now constructor.
Qed.

End Facility.

Arguments real_a {double} u.
Arguments real_b {double} u.
Arguments d_dist {double} d.
Arguments call_urng {double}.
Arguments draw_int {double} g.
Arguments draw_real {double} g.
Arguments call_random_name {double}.
Arguments call_random_surname {double}.
Arguments out_none {double}.
Arguments out_int {double} v.
Arguments out_real {double} v.
Arguments out_name {double} s.
Arguments gen_int {double} g.
Arguments gen_real {double} g.

(** A library built without assertions: its constructors store the
    bounds in whatever order they come. *)
Definition unchecked_int (a b : Z) : construction uniform_int_distribution :=
  constructed {| int_a := a; int_b := b |}.

(** A library built with assertions: its constructors stop there. *)
Definition checked_int (a b : Z) : construction uniform_int_distribution :=
  invalid_range.

(** The claim that the constructor refuses bounds given in the wrong
    order. *)
Definition rejects_inverted_bounds
  (int_violation : Z -> Z -> construction uniform_int_distribution) : Prop :=
  forall min max, max < min -> Irand_new int_violation min max = invalid_range.

(** C2, as the code has it: with a library that does not check,
    [Irand(5, 3)] is constructed like any other generator; nothing in the
    constructor of [Irand] stands in the way. *)
Lemma Irand_5_3_is_constructed :
  Irand_new unchecked_int 5 3
  = constructed {| m_dist := {| int_a := 5; int_b := 3 |} |} /\
  ~ (forall int_violation, rejects_inverted_bounds int_violation).
Proof.
  split; [reflexivity |].
  intros H. specialize (H unchecked_int 5 3). discriminate H. lia.
Qed.

Example Irand_5_3_checked : Irand_new checked_int 5 3 = invalid_range.
Proof. reflexivity. Qed.

(** *** A stand-in for the standard library's parts

    A linear congruential engine on 32 bits, a sampler that scales the
    engine's output into the interval by multiply and shift, and exact
    rationals in place of [double]. It shows that what the development
    assumes of the standard library can be met, and lets the operations
    run on concrete inputs. *)

Definition lcg : Type := Z.

Definition lcg_seed (seed : Z) : lcg := seed mod 2 ^ 32.

Definition lcg_next (e : lcg) : lcg :=
  (1664525 * e + 1013904223) mod 2 ^ 32.

Definition counting_device (i : nat) : Z := 2024 + Z.of_nat i.

Definition scale_int (d : uniform_int_distribution) (e : lcg) : Z * lcg :=
  let x := lcg_next e in
  (int_a d + (x * (int_b d - int_a d + 1)) / 2 ^ 32, x).

Definition scale_real (d : uniform_real_distribution Q) (e : lcg) : Q * lcg :=
  let x := lcg_next e in
  (Qplus (real_a d)
     (Qmult (Qmake x 4294967296) (Qminus (real_b d) (real_a d))), x).

Definition two_names : list string := ["abdi"%string; "zubeyde"%string].
Definition two_surnames : list string := ["acar"%string; "zebani"%string].

Lemma scale_int_range (d : uniform_int_distribution) (e : lcg) :
  int_a d <= int_b d -> int_a d <= fst (scale_int d e) <= int_b d.
Proof.
  intros Hab. unfold scale_int. simpl.
  assert (Hx : 0 <= lcg_next e < 2 ^ 32)
    by (unfold lcg_next; apply Z.mod_pos_bound; reflexivity).
  set (x := lcg_next e) in *. set (n := int_b d - int_a d + 1).
  assert (Hn : 1 <= n) by (unfold n; lia).
  assert (0 <= (x * n) / 2 ^ 32) by (apply Z.div_pos; [nia | reflexivity]).
  assert ((x * n) / 2 ^ 32 < n)
    by (apply Z.div_lt_upper_bound; [reflexivity | nia]).
  lia.
Qed.

Definition die : Irand := {| m_dist := {| int_a := 1; int_b := 6 |} |}.
Definition five : Irand := {| m_dist := {| int_a := 5; int_b := 5 |} |}.
Definition unit_interval : Drand Q :=
  {| d_dist := {| real_a := 0%Q; real_b := 1%Q |} |}.

Definition some_history : list (op Q) :=
  [draw_int five; call_urng; draw_real unit_interval; call_random_name;
   draw_int die].

Example die_rolls :
  fst (run_ops lcg lcg_seed counting_device scale_int Q scale_real
         two_names two_surnames
         [draw_int die; draw_int five; draw_int die; call_random_surname]
         (start lcg))
  = [out_int 1; out_int 5; out_int 5; out_name (Some "zebani"%string)].
Proof. vm_compute. reflexivity. Qed.

Lemma Irand_draw_in_range_witness :
  1 <= fst (Irand_call lcg lcg_seed counting_device scale_int die
              (snd (run_ops lcg lcg_seed counting_device scale_int Q scale_real
                      two_names two_surnames some_history (start lcg)))) <= 6.
Proof.
  apply (Irand_draw_in_range lcg lcg_seed counting_device scale_int Q
           scale_real two_names two_surnames scale_int_range unchecked_int
           1 6 die some_history (start lcg)).
  - lia.
  - reflexivity.
Defined.

Lemma Irand_5_5_always_5_witness :
  fst (Irand_call lcg lcg_seed counting_device scale_int five
         (snd (run_ops lcg lcg_seed counting_device scale_int Q scale_real
                 two_names two_surnames some_history (start lcg)))) = 5.
Proof.
  apply (Irand_5_5_always_5 lcg lcg_seed counting_device scale_int Q
           scale_real two_names two_surnames scale_int_range unchecked_int
           five some_history (start lcg)).
  reflexivity.
Defined.

Lemma random_names_come_from_tables_witness :
  (exists name,
      fst (random_name lcg lcg_seed counting_device scale_int two_names (start lcg))
      = Some name /\ In name two_names) /\
  (exists name,
      fst (random_surname lcg lcg_seed counting_device scale_int two_surnames
             (start lcg))
      = Some name /\ In name two_surnames) /\
  snd (random_name lcg lcg_seed counting_device scale_int two_names (start lcg))
  = snd (Irand_call lcg lcg_seed counting_device scale_int
           {| m_dist := {| int_a := 0;
                           int_b := Z.of_nat (List.length two_names) - 1 |} |}
           (start lcg)) /\
  snd (random_surname lcg lcg_seed counting_device scale_int two_surnames
         (start lcg))
  = snd (Irand_call lcg lcg_seed counting_device scale_int
           {| m_dist := {| int_a := 0;
                           int_b := Z.of_nat (List.length two_surnames) - 1 |} |}
           (start lcg)).
Proof.
  apply (random_names_come_from_tables lcg lcg_seed counting_device scale_int
           two_names two_surnames scale_int_range (start lcg)).
  - discriminate.
  - discriminate.
Defined.

(** *** The generators over binary64 *)

Module Doubles.

Import PrimFloat.

Local Open Scope float_scope.

(** Two to the 1023, the largest power of two among the finite values. *)
Definition huge : float := 0x1p1023.

Definition finite_width (a b : float) : bool := is_finite (b - a).

(** A library built without assertions: the bounds are stored as they
    come. *)
Definition unchecked_real (a b : float)
  : construction (uniform_real_distribution float) :=
  constructed {| real_a := a; real_b := b |}.

(** Modelled from the spec: the standard library's real distribution is
    not part of the header. This is the mapping the specification
    describes, raw engine output turned into a value of the requested
    interval, in the form the usual implementations compute it: the
    engine's 32 bits scaled into [[0, 1)], then [u * (b - a) + a]. *)
Definition canonical (e : lcg) : float * lcg :=
  let x := lcg_next e in
  (of_uint63 (Uint63.of_Z x) / 4294967296, x).

Definition affine_real (d : uniform_real_distribution float) (e : lcg)
  : float * lcg :=
  let (u, e') := canonical e in
  (u * (real_b d - real_a d) + real_a d, e').

(** The same mapping kept inside the interval: a value that rounding or
    overflow carried outside is replaced by the lower bound. *)
Definition guarded_real (d : uniform_real_distribution float) (e : lcg)
  : float * lcg :=
  let (v, e') := affine_real d e in
  (if (real_a d <=? v) && (v <=? real_b d) then v else real_a d, e').

Definition wide : Drand float :=
  {| d_dist := {| real_a := - huge; real_b := huge |} |}.

Definition unit_range : Drand float :=
  {| d_dist := {| real_a := 0; real_b := 1 |} |}.

Definition mixed_history : list (op float) :=
  [draw_int five; draw_real unit_range; call_urng; call_random_name;
   draw_int die; call_random_surname; draw_real unit_range].

Example unit_draws_inside :
  match fst (Drand_call lcg lcg_seed counting_device float affine_real
               unit_range (start lcg)) with
  | v => (0 <=? v) && (v <? 1)
  end = true.
Proof. vm_compute. reflexivity. Qed.

Lemma SFleb_refl (x y : SpecFloat.spec_float) :
  SpecFloat.SFleb x y = true -> SpecFloat.SFleb x x = true.
Proof.
  unfold SpecFloat.SFleb.
  destruct x as [s | s | | s m e]; simpl; try discriminate; intros _.
  - reflexivity.
  - destruct s; reflexivity.
  - rewrite Z.compare_refl, Pos.compare_cont_refl. destruct s; reflexivity.
Qed.

Lemma leb_refl_left (x y : float) : (x <=? y) = true -> (x <=? x) = true.
Proof. rewrite !FloatAxioms.leb_spec. apply SFleb_refl. Qed.

Lemma guarded_real_range (d : uniform_real_distribution float) (e : lcg) :
  (real_a d <=? real_b d) = true ->
  finite_width (real_a d) (real_b d) = true ->
  (real_a d <=? fst (guarded_real d e)) = true /\
  (fst (guarded_real d e) <=? real_b d) = true.
Proof.
  intros Hab _. unfold guarded_real.
  destruct (affine_real d e) as [v e']. simpl.
  destruct ((real_a d <=? v) && (v <=? real_b d))%bool eqn:Hin.
  - now apply andb_true_iff in Hin.
  - split; [now apply (leb_refl_left _ (real_b d)) | exact Hab].
Qed.

(** C6, as the code has it: [Drand(-2^1023, 2^1023)] has its bounds in
    order, yet their difference is not a finite [double], and the draw
    leaves the interval: it is infinite. *)
Lemma Drand_wide_draw_is_infinite :
  (- huge <=? huge) = true /\
  Drand_new float leb finite_width unchecked_real (- huge) huge
  = constructed wide /\
  fst (Drand_call lcg lcg_seed counting_device float affine_real wide (start lcg))
  = infinity /\
  (infinity <=? huge) = false /\
  ~ Drand_in_range_whenever_ordered lcg lcg_seed counting_device float
      affine_real leb finite_width unchecked_real.
Proof.
  split; [reflexivity |]. split; [reflexivity |].
  split; [vm_compute; reflexivity |]. split; [reflexivity |].
  intros H.
  destruct (H (- huge) huge wide (start lcg) eq_refl eq_refl) as [_ Hup].
  vm_compute in Hup. discriminate Hup.
Qed.

Lemma Drand_draw_in_range_witness :
  (0 <=? fst (Drand_call lcg lcg_seed counting_device float guarded_real
                unit_range
                (snd (run_ops lcg lcg_seed counting_device scale_int float
                        guarded_real two_names two_surnames mixed_history
                        (start lcg))))) = true /\
  (fst (Drand_call lcg lcg_seed counting_device float guarded_real
          unit_range
          (snd (run_ops lcg lcg_seed counting_device scale_int float
                  guarded_real two_names two_surnames mixed_history
                  (start lcg)))) <=? 1) = true.
Proof.
  apply (Drand_draw_in_range lcg lcg_seed counting_device scale_int float
           guarded_real two_names two_surnames leb finite_width
           unchecked_real guarded_real_range 0 1 unit_range mixed_history
           (start lcg)).
  - reflexivity.
  - reflexivity.
  - reflexivity.
Defined.

Lemma well_posed_runs_stay_in_range_witness :
  Forall2 (in_range float two_names two_surnames leb) mixed_history
    (fst (run_ops lcg lcg_seed counting_device scale_int float guarded_real
            two_names two_surnames mixed_history (start lcg))).
Proof.
  apply (well_posed_runs_stay_in_range lcg lcg_seed counting_device scale_int
           float guarded_real two_names two_surnames scale_int_range leb
           finite_width guarded_real_range mixed_history (start lcg)).
  unfold mixed_history. repeat constructor; simpl; try lia; discriminate.
Defined.

End Doubles.

End Random.
